(** * Blueprint compiler front end: parser boundary, completion resolver
      and two extension validators, embedded from the Python sources.

    Sources embedded here:
    - [blueprintcompiler/parser.py]        ([parse])
    - [blueprintcompiler/completions.py]   ([_complete], [complete],
      [property_completer], [signal_completer])
    - [blueprintcompiler/language/adw_response_dialog.py]
    - [blueprintcompiler/language/gtk_list_item_factory.py]

    Python integers are [Z]; lists are [list] with stdpp's lookup; a Python
    exception is an explicit [Raise] outcome. *)

From Stdlib Require Import ZArith Ascii String.
From stdpp Require Import base tactics option list strings gmap.

Local Open Scope Z_scope.

(** ** Diagnostics *)

Module Errors.

Record Range : Set := mkRange { range_start : Z; range_end : Z }.

(** A quick-fix: [CodeAction(title, replace_with)]. *)
Record CodeAction : Set := mkCodeAction {
  title : string;
  replace_with : string;
}.

(** Modelled from the spec: the diagnostic classes of the errors module
    (not part of the sources): the fatal CompileError and the non-fatal
    advisories, of which UpgradeWarning is the one raised in the sources. *)
Inductive ErrorClass : Set :=
| CompileErrorClass
| CompileWarningClass
| UpgradeWarningClass.

(** Modelled from the spec: severity, error versus warning. *)
Definition is_warning (c : ErrorClass) : bool :=
  match c with
  | CompileErrorClass => false
  | CompileWarningClass | UpgradeWarningClass => true
  end.

(** Modelled from the spec: the diagnostic record {message, source range,
    severity, quick-fix actions}. The severity is that of the class; the
    range is absent until the validation wrapper attaches one. *)
Record CompileError : Set := mkCompileError {
  err_class : ErrorClass;
  message : string;
  range : option Range;
  actions : list CodeAction;
}.

Definition error (msg : string) : CompileError :=
  mkCompileError CompileErrorClass msg None [].

Definition fatal (e : CompileError) : bool := negb (is_warning (err_class e)).

End Errors.

(** ** Python primitives *)

Module Py.

(** Exception classes that the embedded code raises or catches. *)
Inductive exn : Type :=
| CompileErrorExn (e : Errors.CompileError)          (* CompileError and subclasses *)
| MultipleErrorsExn (es : list Errors.CompileError)  (* MultipleErrors *)
| AssertionError
| IndexError
| AttributeError
| OtherExn (name : string).

(** Outcome of running a piece of Python: a value or a raised exception. *)
Inductive result (A : Type) : Type :=
| Ok (a : A)
| Raise (x : exn).
Arguments Ok {A} a.
Arguments Raise {A} x.

Definition bind {A B} (m : result A) (k : A → result B) : result B :=
  match m with
  | Ok a => k a
  | Raise x => Raise x
  end.

(** A generator that has run to its end: the values it yielded, in order,
    and the exception that stopped it, if one did. *)
Definition gen (A : Type) : Type := list A * option exn.

Definition gen_of_list {A} (l : list A) : gen A := (l, None).
Definition gen_raise {A} (x : exn) : gen A := ([], Some x).

(** [yield from g1] followed by the rest [g2]. *)
Definition gen_seq {A} (g1 g2 : gen A) : gen A :=
  match g1 with
  | (l1, None) => (l1 ++ g2.1, g2.2)
  | (l1, Some x) => (l1, Some x)
  end.

(** [for g in gs: yield from g] *)
Definition gen_concat {A} (gs : list (gen A)) : gen A :=
  foldr gen_seq (gen_of_list []) gs.

(** [l[i]] for a Python list: a negative index counts from the end, and an
    index outside [-len, len) raises IndexError (here [None]). *)
Definition index {A} (l : list A) (i : Z) : option A :=
  if 0 <=? i then l !! Z.to_nat i
  else if - Z.of_nat (length l) <=? i then l !! Z.to_nat (Z.of_nat (length l) + i)
  else None.

(** [l[-n:]] -- the last [n] elements. *)
Definition last_n {A} (n : nat) (l : list A) : list A :=
  drop (length l - n)%nat l.

(** [s.replace(a, b)] for single characters. *)
Fixpoint replace_char (a b : ascii) (s : string) : string :=
  match s with
  | EmptyString => EmptyString
  | String c s' => String (if Ascii.eqb c a then b else c) (replace_char a b s')
  end.

(** [sep.join(parts)] *)
Fixpoint join (sep : string) (parts : list string) : string :=
  match parts with
  | [] => EmptyString
  | [p] => p
  | p :: ps => (p ++ sep ++ join sep ps)%string
  end.

End Py.

#[global] Instance result_ret : MRet Py.result := λ A a, Py.Ok a.
#[global] Instance result_bind : MBind Py.result := λ A B k m, Py.bind m k.

(** ** Tokens *)

Module Tokenizer.

(** Modelled from the spec: the lexical categories of [tokenizer.TokenType]
    (the tokenizer module is not part of the sources; the members IDENT,
    OP and WHITESPACE are named in [completions.py]). *)
Inductive TokenType : Set :=
| IDENT | QUOTED | NUMBER | OP | WHITESPACE | COMMENT | PUNCTUATION | EOF.

#[global] Instance TokenType_eq_dec : EqDecision TokenType.
Proof. solve_decision. Defined.

(** A token: category, byte span [start, end) and the text it was cut from. *)
Record Token : Set := mkToken {
  type : TokenType;
  start : Z;
  end_ : Z;
  string_ : string;
}.

#[global] Instance Token_eq_dec : EqDecision Token.
Proof. solve_decision. Defined.

(** Modelled from the spec: [SKIP_TOKENS], the categories designated
    skippable (whitespace, comments); the constant is imported from the
    parse-tree module, which is not part of the sources. *)
Definition SKIP_TOKENS : list TokenType := [COMMENT; WHITESPACE].

Definition skippable (t : Token) : bool := bool_decide (type t ∈ SKIP_TOKENS).

End Tokenizer.

(** ** parser.py *)

Module Parser.
Import Py Tokenizer Errors.

Section Parse.

(** The parse-tree engine and the AST construction are other modules of
    the package; [parse] is embedded over their observable outcome. *)
Context {ParseGroup UI : Type}.

(** State of a [ParseContext] after the grammar has run. *)
Record ParseContext : Type := mkParseContext {
  last_group : option ParseGroup;
  ctx_errors : list CompileError;
  ctx_warnings : list CompileError;
}.

(** [ctx = ParseContext(tokens, original_text); AnyOf(UI).parse(ctx)] *)
Variable run_grammar : list Token → string → result ParseContext.
(** [group.to_ast()] *)
Variable to_ast : ParseGroup → result UI.
(** [ast_node.errors], [ast_node.warnings] *)
Variable ast_errors : UI → result (list CompileError).
Variable ast_warnings : UI → result (list CompileError).

Definition ParseOutput : Type :=
  option UI * option (list CompileError) * list CompileError.

(** [tokens[0].string if len(tokens) else ""] *)
Definition original_text (tokens : list Token) : string :=
  match tokens with
  | t :: _ => string_ t
  | [] => EmptyString
  end.

(** The body of the [try] block. *)
Definition parse_body (tokens : list Token) : result ParseOutput :=
  ctx ← run_grammar tokens (original_text tokens);
  match last_group ctx with
  | None => Raise AssertionError
  | Some group =>
      ast_node ← to_ast group;
      node_errors ← ast_errors ast_node;
      let errors := ctx_errors ctx ++ node_errors in
      node_warnings ← ast_warnings ast_node;
      let warnings := ctx_warnings ctx ++ node_warnings in
      Ok (Some ast_node,
          if bool_decide (length errors ≠ 0%nat) then Some errors else None,
          warnings)
  end.

(** [parse]: the body under its two [except] clauses. *)
Definition parse (tokens : list Token) : result ParseOutput :=
  match parse_body tokens with
  | Ok out => Ok out
  | Raise (MultipleErrorsExn es) => Ok (None, Some es, [])
  | Raise (CompileErrorExn e) => Ok (None, Some [e], [])
  | Raise x => Raise x
  end.

End Parse.

(** The exception classes named by the two [except] clauses of [parse]. *)
Definition caught (x : exn) : Prop :=
  match x with
  | CompileErrorExn _ | MultipleErrorsExn _ => True
  | _ => False
  end.

(** A step that ends normally or with one of those exceptions. *)
Definition compile_errors_only {A} (m : result A) : Prop :=
  match m with
  | Ok _ => True
  | Raise x => caught x
  end.

End Parser.

(** ** Type catalog (read-only interface) *)

Module Gir.

(** Modelled from the spec: the value-kind classification of the Type
    Catalog (the catalog module is not part of the sources).
    [property_completer] tells apart the boolean type, the string type,
    enumerations (with their members in catalog order) and everything else,
    which it inspects only through its full name. *)
Inductive GirType : Set :=
| BoolType
| StringType
| Enumeration (name : string) (members : list string)
| OtherType (name : string).

(** Modelled from the spec: [type.full_name]; basic types carry their bare
    name, catalog entities their namespaced name. *)
Definition full_name (t : GirType) : string :=
  match t with
  | BoolType => "bool"
  | StringType => "string"
  | Enumeration n _ => n
  | OtherType n => n
  end.

Record Property : Set := mkProperty {
  prop_type : GirType;
  prop_doc : option string;
  prop_detail : option string;
}.

Record Signal : Set := mkSignal {
  signal_doc : option string;
  signal_detail : option string;
}.

(** A resolved class; an attribute the object does not have ([hasattr] is
    false) is [None]. Dictionaries keep insertion order. *)
Record GirClass : Set := mkGirClass {
  properties : option (list (string * Property));
  signals : option (list (string * Signal));
}.

End Gir.

(** ** Language-server records *)

Module Lsp.

Module CompletionItemKind.
Inductive t : Set :=
| Keyword | Module_ | Class | Property | EnumMember | Constant | Event | Snippet.
End CompletionItemKind.

(** Modelled from the spec: the suggestion shape {label, kind, optional sort
    priority, optional snippet, optional plain text, optional
    documentation, optional detail}. *)
Record Completion : Set := mkCompletion {
  label : string;
  kind : CompletionItemKind.t;
  sort_text : option string;
  snippet : option string;
  text : option string;
  docs : option string;
  detail : option string;
}.

(** The part of the language-server object the completers read. *)
Record LanguageServer : Set := mkLanguageServer {
  client_supports_completion_choice : bool;
}.

End Lsp.

(** ** AST nodes *)

Module AstUtils.
Import Gir.

(** The node classes named in the sources. *)
Inductive NodeType : Set :=
| UI | GtkDirective | Import | Template | Object | ObjectContent
| ClassName | PropertyNode | A11yProperty
| OtherNode (name : string).

#[global] Instance NodeType_eq_dec : EqDecision NodeType.
Proof. solve_decision. Defined.

(** The span of the parse group a node is a view of. *)
Record ParseGroup : Set := mkParseGroup { group_start : Z; group_end : Z }.

(** [tokens] of a ClassName node; an absent key reads as None. *)
Record ClassNameTokens : Set := mkClassNameTokens {
  tok_id : option string;
  tok_class_name : option string;
}.

(** What a completer reads through the non-owning [parent] reference. *)
Record ParentView : Set := mkParentView {
  parent_type : NodeType;
  parent_class_names : list ClassNameTokens;   (* parent.children[ClassName] *)
}.

#[warnings="-register-all"]
Inductive AstNode : Set := mkAstNode {
  node_type : NodeType;
  group : ParseGroup;
  incomplete : bool;
  gir_class : option GirClass;
  parent : option ParentView;
  children : list AstNode;
}.

(** Induction over the tree, with the hypothesis on every child. *)
Fixpoint AstNode_forall_ind (P : AstNode → Prop)
    (step : ∀ n, Forall P (children n) → P n) (n : AstNode) : P n :=
  step n
    (match n as n0 return Forall P (children n0) with
     | mkAstNode _ _ _ _ _ cs =>
         (fix go (l : list AstNode) : Forall P l :=
            match l with
            | [] => Forall_nil_2 P
            | c :: l' => Forall_cons_2 P c l' (AstNode_forall_ind P step c) (go l')
            end) cs
     end).

(** The node reached from [n] by following child positions. *)
Fixpoint node_at (n : AstNode) (path : list nat) : option AstNode :=
  match path with
  | [] => Some n
  | i :: rest =>
      match children n !! i with
      | Some c => node_at c rest
      | None => None
      end
  end.

End AstUtils.

(** ** completions.py: the resolver *)

Module Completions.
Import Py Tokenizer Gir Lsp AstUtils.

(** The condition of the [for child in ast_node.children] loop of
    [_complete]: the child's span contains [idx], its end included only for
    an incomplete child. *)
Definition child_matches (idx : Z) (child : AstNode) : bool :=
  (group_start (group child) <=? idx)
  && ((idx <? group_end (group child))
      || ((idx =? group_end (group child)) && incomplete child)).

(** The trailing-window loop of [_complete]:
    [while len(prev_tokens) < 5 and token_idx >= 0]. The counter [k] is
    [token_idx + 1], so [token_idx >= 0] reads [k ≠ 0] and [tokens[token_idx]]
    reads position [k - 1]. *)
Fixpoint collect_prev_tokens (tokens prev_tokens : list Token) (k : nat)
    : result (list Token) :=
  if bool_decide (length prev_tokens < 5)%nat then
    match k with
    | O => Ok prev_tokens
    | S token_idx =>
        match tokens !! token_idx with
        | None => Raise IndexError
        | Some token =>
            collect_prev_tokens tokens
              (if skippable token then prev_tokens else token :: prev_tokens)
              token_idx
        end
    end
  else Ok prev_tokens.

Definition prev_tokens_of (tokens : list Token) (token_idx : Z) : result (list Token) :=
  collect_prev_tokens tokens [] (Z.to_nat (token_idx + 1)).

(** A registered completer as [_complete] calls it:
    [completer(prev_tokens, ast_node, lsp)]. *)
Definition Completer : Type :=
  list Token → AstNode → LanguageServer → gen Completion.

Section Resolver.

(** [ast_node.completers]: the process-wide registrations, by node class. *)
Variable completers : NodeType → list Completer.

(** [for completer in ast_node.completers: yield from completer(...)] *)
Definition dispatch (lsp : LanguageServer) (ast_node : AstNode)
    (prev_tokens : list Token) : gen Completion :=
  gen_concat (map (λ completer : Completer, completer prev_tokens ast_node lsp)
                  (completers (node_type ast_node))).

(** The tail of [_complete], once no child has matched. *)
Definition complete_here (lsp : LanguageServer) (ast_node : AstNode)
    (tokens : list Token) (token_idx : Z) : gen Completion :=
  match prev_tokens_of tokens token_idx with
  | Raise x => gen_raise x
  | Ok prev_tokens => dispatch lsp ast_node prev_tokens
  end.

Fixpoint _complete (lsp : LanguageServer) (ast_node : AstNode)
    (tokens : list Token) (idx token_idx : Z) {struct ast_node} : gen Completion :=
  let fix for_children (cs : list AstNode) : option (gen Completion) :=
    match cs with
    | [] => None
    | child :: rest =>
        if child_matches idx child
        then Some (_complete lsp child tokens idx token_idx)   (* yield from; return *)
        else for_children rest
    end in
  match for_children (children ast_node) with
  | Some g => g
  | None => complete_here lsp ast_node tokens token_idx
  end.

(** The first loop of [complete]: the last position [i] with
    [token.start < idx <= token.end], 0 when there is none. *)
Fixpoint find_current_token (idx : Z) (tokens : list Token) (i token_idx : Z) : Z :=
  match tokens with
  | [] => token_idx
  | token :: rest =>
      find_current_token idx rest (i + 1)
        (if (start token <? idx) && (idx <=? end_ token) then i else token_idx)
  end.

Definition ident_or_whitespace (t : Token) : bool :=
  bool_decide (type t ∈ [IDENT; WHITESPACE]).

(** The second loop of [complete]:
    [while tokens[token_idx].type in [IDENT, WHITESPACE]].
    [None] means the iteration bound [fuel] was used up. *)
Fixpoint step_back (fuel : nat) (tokens : list Token) (idx token_idx : Z)
    : option (result (Z * Z)) :=
  match Py.index tokens token_idx with
  | None => Some (Raise IndexError)
  | Some token =>
      if ident_or_whitespace token then
        match fuel with
        | O => None
        | S fuel' => step_back fuel' tokens (start token) (token_idx - 1)
        end
      else Some (Ok (idx, token_idx))
  end.

(** Offset and token index that [complete] hands to [_complete]. Every
    iteration lowers [token_idx] by one and an index below [-len] raises,
    so [2 * len] iterations are never exceeded. *)
Definition anchor (tokens : list Token) (idx : Z) : option (result (Z * Z)) :=
  step_back (2 * length tokens) tokens idx (find_current_token idx tokens 0 0).

Definition complete (lsp : LanguageServer) (ast_node : AstNode)
    (tokens : list Token) (idx : Z) : option (gen Completion) :=
  match anchor tokens idx with
  | None => None
  | Some (Raise x) => Some (gen_raise x)
  | Some (Ok (idx', token_idx)) => Some (_complete lsp ast_node tokens idx' token_idx)
  end.

End Resolver.

(** *** The generators for object content *)

Section Generators.

(** [annotations.is_property_translated], from a module outside the
    sources. *)
Variable is_property_translated : Property → bool.

(** [str.lower], the lower-casing of Python strings, which follows the
    Unicode case tables; taken as a function on strings. *)
Variable str_lower : string → string.

Definition dquote : string := String "034"%char EmptyString.

Definition is_BoolType (t : GirType) : bool :=
  match t with BoolType => true | _ => false end.
Definition is_StringType (t : GirType) : bool :=
  match t with StringType => true | _ => false end.
Definition is_Enumeration (t : GirType) : bool :=
  match t with Enumeration _ _ => true | _ => false end.
(** [type.members.keys()] of an enumeration. *)
Definition members (t : GirType) : list string :=
  match t with Enumeration _ ms => ms | _ => [] end.

(** The suggestion every branch of [property_completer] builds; the
    branches differ in the snippet only. *)
Definition property_item (prop_name : string) (prop : Property)
    (snippet : string) : Completion :=
  {| label := prop_name;
     kind := CompletionItemKind.Property;
     sort_text := Some ("0 " +:+ prop_name);
     snippet := Some snippet;
     text := None;
     docs := prop_doc prop;
     detail := prop_detail prop |}.

(** The body of the loop of [property_completer]. *)
Definition property_completion (lsp : LanguageServer) (prop_name : string)
    (prop : Property) : Completion :=
  if is_BoolType (prop_type prop) && client_supports_completion_choice lsp then
    property_item prop_name prop (prop_name +:+ ": ${1|true,false|};")
  else if is_StringType (prop_type prop) then
    property_item prop_name prop
      (if is_property_translated prop
       then prop_name +:+ ": _(" +:+ dquote +:+ "$0" +:+ dquote +:+ ");"
       else prop_name +:+ ": " +:+ dquote +:+ "$0" +:+ dquote +:+ ";")
  else if is_Enumeration (prop_type prop)
          && bool_decide (length (members (prop_type prop)) ≤ 10)%nat
          && client_supports_completion_choice lsp then
    property_item prop_name prop
      (prop_name +:+ ": ${1|" +:+ join "," (members (prop_type prop)) +:+ "|};")
  else if String.eqb (full_name (prop_type prop)) "Gtk.Expression" then
    property_item prop_name prop (prop_name +:+ ": expr $0;")
  else
    property_item prop_name prop (prop_name +:+ ": $0;").

Definition property_completer (lsp : LanguageServer) (ast_node : AstNode)
    (match_variables : list string) : gen Completion :=
  match gir_class ast_node with
  | Some cls =>
      match properties cls with
      | Some props =>
          gen_of_list (map (λ item, property_completion lsp item.1 item.2) props)
      | None => gen_of_list []
      end
  | None => gen_of_list []
  end.

(** [a or b] on optional strings: None and the empty string are falsy. *)
Definition str_or (a : option string) (b : result string) : result string :=
  match a with
  | Some s => if String.eqb s "" then b else Ok s
  | None => b
  end.

(** The handler-name prefix computed in the loop of [signal_completer]. *)
Definition signal_handler_prefix (ast_node : AstNode) : result string :=
  match parent ast_node with
  | Some p =>
      if bool_decide (parent_type p = Object) then
        match parent_class_names p !! 0%nat with
        | None => Raise IndexError
        | Some cn =>
            s ← str_or (tok_id cn)
                  (match tok_class_name cn with
                   | Some c => Ok (str_lower c)
                   | None => Raise AttributeError
                   end);
            Ok ("on_" +:+ s)
        end
      else Ok "on"
  | None => Ok "on"
  end.

Definition signal_completion (name signal_name : string) (signal : Signal)
    : Completion :=
  {| label := signal_name;
     kind := CompletionItemKind.Event;
     sort_text := Some ("1 " +:+ signal_name);
     snippet := Some (signal_name +:+ " => \$${1:$" +:+ name +:+ "_"
                      +:+ replace_char "-" "_" signal_name +:+ "}()$0;");
     text := None;
     docs := signal_doc signal;
     detail := signal_detail signal |}.

(** The loop of [signal_completer]; the prefix does not depend on the
    signal, so a failure to compute it stops the generator at the first
    signal, before anything is yielded. *)
Definition signal_completer (lsp : LanguageServer) (ast_node : AstNode)
    (match_variables : list string) : gen Completion :=
  match gir_class ast_node with
  | Some cls =>
      match signals cls with
      | Some [] | None => gen_of_list []
      | Some sigs =>
          match signal_handler_prefix ast_node with
          | Raise x => gen_raise x
          | Ok name =>
              gen_of_list (map (λ item, signal_completion name item.1 item.2) sigs)
          end
      end
  | None => gen_of_list []
  end.

End Generators.

End Completions.

(** ** The validation framework used by the extensions *)

Module Validation.
Import Py Errors.

Section UniqueInParent.
Context {Node : Type}.

(** Modelled from the spec: [AstNode.validate_unique_in_parent(error,
    check)], whose definition is not part of the sources. A uniqueness
    check over the siblings under one parent "reports one diagnostic per
    duplicate found, excluding the first occurrence": the node at
    position [self_pos] is reported when a sibling of its own class that
    comes before it passes [check]. *)
Definition validate_unique_in_parent (siblings : list Node) (self_pos : nat)
    (same_type : Node → bool) (error : string) (check : Node → bool)
    : result unit :=
  if existsb (λ child, same_type child && check child) (take self_pos siblings)
  then Raise (CompileErrorExn (Errors.error error))
  else Ok tt.

End UniqueInParent.

(** Modelled from the spec: the [@validate(token_name)] wrapper, whose
    definition is not part of the sources. Every diagnostic carries a source
    range: one raised without a range gets the range of the named token.
    Other exceptions pass through. *)
Definition validate (token_range : Range) (v : result unit) : result unit :=
  match v with
  | Raise (CompileErrorExn e) =>
      Raise (CompileErrorExn
               (match range e with
                | Some _ => e
                | None => mkCompileError (err_class e) (message e)
                            (Some token_range) (actions e)
                end))
  | other => other
  end.

(** Modelled from the spec: validation collects what each validator
    reports and goes on; a validator that returns reports nothing. *)
Definition reported (v : result unit) : list CompileError :=
  match v with
  | Raise (CompileErrorExn e) => [e]
  | Raise (MultipleErrorsExn es) => es
  | _ => []
  end.

(** Modelled from the spec: every validator runs and every diagnostic is
    collected. The diagnostics of one validator over the children of one
    parent, each with the position of the child it is attached to, in child
    order. *)
Definition reported_by_position {Node : Type}
    (validator : list Node → nat → Node → result unit) (siblings : list Node)
    : list (nat * CompileError) :=
  mjoin (imap (λ i child, pair i <$> reported (validator siblings i child)) siblings).

End Validation.

(** ** language/adw_response_dialog.py *)

Module AdwResponseDialog.
Import Py Errors Validation.

(** Children of a response: its string value and its flags
    ([ExtAdwResponseDialogFlag], with the text of its [flag] token). *)
Inductive ResponseChild : Set :=
| StringValue (value : string)
| ExtAdwResponseDialogFlag (flag : string).

Definition is_flag (c : ResponseChild) : bool :=
  match c with ExtAdwResponseDialogFlag _ => true | StringValue _ => false end.

(** [child.flag]; only read on flag nodes. *)
Definition flag_of (c : ResponseChild) : string :=
  match c with ExtAdwResponseDialogFlag f => f | StringValue _ => "" end.

Record ExtAdwResponseDialogResponse : Set := mkResponse {
  id : string;
  response_children : list ResponseChild;
}.

(** [self.flags = self.children[ExtAdwResponseDialogFlag]] *)
Definition flags (r : ExtAdwResponseDialogResponse) : list string :=
  flag_of <$> filter (λ c, is_flag c = true) (response_children r).

Definition in_destructive_suggested (f : string) : bool :=
  bool_decide (f ∈ ["destructive"; "suggested"]).

(** [ExtAdwResponseDialogFlag.unique] for the flag at [self_pos]. *)
Definition unique (siblings : list ResponseChild) (self_pos : nat)
    (self : ResponseChild) : result unit :=
  validate_unique_in_parent siblings self_pos is_flag
    ("Duplicate '" +:+ flag_of self +:+ "' flag")
    (λ child, String.eqb (flag_of child) (flag_of self)).

Definition exclusive_message : string := "'suggested' and 'destructive' are exclusive".

(** [ExtAdwResponseDialogFlag.exclusive] for the flag at [self_pos]. *)
Definition exclusive (siblings : list ResponseChild) (self_pos : nat)
    (self : ResponseChild) : result unit :=
  if in_destructive_suggested (flag_of self) then
    validate_unique_in_parent siblings self_pos is_flag
      exclusive_message
      (λ child, in_destructive_suggested (flag_of child))
  else Ok tt.

(** The exclusivity validator run on every flag of a response. *)
Definition exclusive_diagnostics (r : ExtAdwResponseDialogResponse)
    : list (nat * CompileError) :=
  reported_by_position
    (λ siblings i child, if is_flag child then exclusive siblings i child else Ok tt)
    (response_children r).

Definition duplicate_message (id : string) : string :=
  "Duplicate response ID '" +:+ id +:+ "'".

(** [ExtAdwResponseDialogResponse.unique_in_parent] for the response at
    [self_pos] of a responses block, whose children are all responses. *)
Definition unique_in_parent (siblings : list ExtAdwResponseDialogResponse)
    (self_pos : nat) (self : ExtAdwResponseDialogResponse) : result unit :=
  validate_unique_in_parent siblings self_pos (λ _, true)
    (duplicate_message (id self))
    (λ child, String.eqb (id child) (id self)).

(** The duplicate-ID validator run on every response of a block. *)
Definition duplicate_diagnostics (responses : list ExtAdwResponseDialogResponse)
    : list (nat * CompileError) :=
  reported_by_position unique_in_parent responses.

(** [ExtAdwResponseDialogResponse.appearance] *)
Definition appearance (r : ExtAdwResponseDialogResponse) : option string :=
  if existsb (λ flag, String.eqb flag "destructive") (flags r) then Some "destructive"
  else if existsb (λ flag, String.eqb flag "suggested") (flags r) then Some "suggested"
  else None.

(** [ExtAdwResponseDialogResponse.enabled] *)
Definition enabled (r : ExtAdwResponseDialogResponse) : bool :=
  negb (existsb (λ flag, String.eqb flag "disabled") (flags r)).

(** [ExtAdwResponseDialog.container_is_message_dialog_or_alert_dialog]:
    a [try] with a bare [except]. [validate_parent_type] belongs to another
    module of the package and is taken by its outcome for the namespace, the
    class name and the description it is called with. *)
Definition container_is_message_dialog_or_alert_dialog
    (validate_parent_type : string → string → string → result unit) : result unit :=
  match validate_parent_type "Adw" "MessageDialog" "responses" with
  | Ok _ => Ok tt
  | Raise _ => validate_parent_type "Adw" "AlertDialog" "responses"
  end.

End AdwResponseDialog.

(** ** language/gtk_list_item_factory.py *)

Module GtkListItemFactory.
Import Py Errors Validation.

(** A [TypeName] child, as far as the template block reads it. *)
Record TypeName : Set := mkTypeName {
  glib_type_name : string;
  gir_type : string;          (* full name of the resolved type *)
}.

Record ExtListItemFactory : Set := mkExtListItemFactory {
  id_range : Range;                 (* range of the "template" token *)
  type_names : list TypeName;       (* self.children[TypeName] *)
}.

Section Factory.

(** [self.root.gir.get_type(name, ns)], from the type catalog. *)
Variable get_type : string → string → string.

Definition type_name (self : ExtListItemFactory) : option TypeName :=
  match type_names self with
  | [t] => Some t
  | _ => None
  end.

Definition gir_class (self : ExtListItemFactory) : string :=
  match type_name self with
  | Some t => gir_type t
  | None => get_type "ListItem" "Gtk"
  end.

Definition type_is_list_item (self : ExtListItemFactory) : result unit :=
  match type_name self with
  | Some t =>
      if bool_decide (glib_type_name t ∉
           ["GtkListItem"; "GtkListHeader"; "GtkColumnViewRow"; "GtkColumnViewCell"])
      then Raise (CompileErrorExn (Errors.error
             "Only Gtk.ListItem, Gtk.ListHeader, Gtk.ColumnViewRow, or Gtk.ColumnViewCell is allowed as a type here"))
      else Ok tt
  | None => Ok tt
  end.

Definition upgrade_action : CodeAction :=
  mkCodeAction "Add ListItem type to template block (introduced in blueprint 0.8.0)"
               "template ListItem".

(** The body of [type_name_upgrade]. *)
Definition type_name_upgrade_body (self : ExtListItemFactory) : result unit :=
  match type_name self with
  | None =>
      Raise (CompileErrorExn
               (mkCompileError UpgradeWarningClass
                  "Expected type name after 'template' keyword" None
                  [upgrade_action]))
  | Some _ => Ok tt
  end.

(** [@validate("id") def type_name_upgrade] *)
Definition type_name_upgrade (self : ExtListItemFactory) : result unit :=
  validate (id_range self) (type_name_upgrade_body self).

End Factory.

End GtkListItemFactory.

(** ** completions.py: the generators driven by the document and the catalog *)

Module CatalogCompleters.
Import Py Tokenizer Gir Lsp AstUtils Completions.

(** A class of a namespace, as [object_completer] reads it. *)
Record ClassEntry : Set := mkClassEntry {
  class_name : string;
  class_doc : option string;
  class_detail : option string;
}.

(** A catalog namespace: its name and [classes.values()] in dictionary
    order. *)
Record Namespace : Set := mkNamespace {
  ns_name : string;
  classes : list ClassEntry;
}.

(** What these generators read through [ast_node.root]: the resolved
    namespace of every Import child ([ns.gir_namespace], None when it did not
    resolve) and the dictionary [root.gir.namespaces]. *)
Record RootView : Type := mkRootView {
  import_namespaces : list (option Namespace);
  namespaces : gmap string Namespace;
}.

Definition newline : string := String "010"%char EmptyString.

(** [using_gtk] *)
Definition using_gtk (lsp : LanguageServer) (root : RootView)
    (match_variables : list string) : gen Completion :=
  gen_of_list
    [ mkCompletion "using Gtk 4.0" CompletionItemKind.Keyword None
        (Some ("using Gtk 4.0;" +:+ newline)) None None None ].

Definition namespace_item (name : string) : Completion :=
  mkCompletion name CompletionItemKind.Module_ None None (Some (name +:+ ".")) None None.

(** [namespace]: Gtk first, then every import that resolved. *)
Definition namespace (lsp : LanguageServer) (root : RootView)
    (match_variables : list string) : gen Completion :=
  gen_of_list
    (namespace_item "Gtk"
     :: mjoin ((λ ns : option Namespace,
                  match ns with
                  | Some n => [namespace_item (ns_name n)]
                  | None => []
                  end) <$> import_namespaces root)).

(** The suggestion built for a class by [object_completer] and
    [gtk_object_completer]. *)
Definition class_item (c : ClassEntry) : Completion :=
  mkCompletion (class_name c) CompletionItemKind.Class None
    (Some (class_name c +:+ " {" +:+ newline +:+ "  $0" +:+ newline +:+ "}"))
    None (class_doc c) (class_detail c).

(** [object_completer]; [match_variables[0]] raises IndexError on an empty
    list, before anything is yielded. *)
Definition object_completer (lsp : LanguageServer) (root : RootView)
    (match_variables : list string) : gen Completion :=
  match match_variables !! 0%nat with
  | None => gen_raise IndexError
  | Some key =>
      match namespaces root !! key with
      | Some ns => gen_of_list (class_item <$> classes ns)
      | None => gen_of_list []
      end
  end.

(** [gtk_object_completer] *)
Definition gtk_object_completer (lsp : LanguageServer) (root : RootView)
    (match_variables : list string) : gen Completion :=
  match namespaces root !! "Gtk" with
  | Some ns => gen_of_list (class_item <$> classes ns)
  | None => gen_of_list []
  end.

Section ValueCompleter.

(** Documentation and detail of an enumeration member, from the catalog. *)
Variable member_doc member_detail : GirType → string → option string.

(** [prop_value_completer]; [value_type] is [ast_node.value_type] and, inside
    it, the type [vt.value_type], either of which may be None. *)
Definition prop_value_completer (lsp : LanguageServer)
    (value_type : option (option GirType)) (match_variables : list string)
    : gen Completion :=
  match value_type with
  | Some (Some (Enumeration n ms)) =>
      gen_of_list
        ((λ name, mkCompletion name CompletionItemKind.EnumMember None None None
                    (member_doc (Enumeration n ms) name)
                    (member_detail (Enumeration n ms) name)) <$> ms)
  | Some (Some BoolType) =>
      gen_of_list
        [ mkCompletion "true" CompletionItemKind.Constant None None None None None;
          mkCompletion "false" CompletionItemKind.Constant None None None None None ]
  | _ => gen_of_list []
  end.

End ValueCompleter.

(** [template_completer] *)
Definition template_completer (lsp : LanguageServer) (root : RootView)
    (match_variables : list string) : gen Completion :=
  gen_of_list
    [ mkCompletion "template" CompletionItemKind.Snippet None
        (Some ("template ${1:ClassName} : ${2:ParentClass} {" +:+ newline
               +:+ "  $0" +:+ newline +:+ "}")) None None None ].

End CatalogCompleters.

(** ** Derived notions used in the statements *)

Module Resolution.
Import Py Tokenizer Lsp AstUtils Completions.

(** The child the loop of [_complete] stops at: the first one, in child
    order, that matches. *)
Definition matching_child (idx : Z) (n : AstNode) : option AstNode :=
  List.find (child_matches idx) (children n).

(** Child positions followed by [_complete] from [n] down to the node
    whose completers it runs. *)
Fixpoint innermost_path (idx : Z) (n : AstNode) {struct n} : list nat :=
  let fix for_children (cs : list AstNode) (i : nat) : option (list nat) :=
    match cs with
    | [] => None
    | child :: rest =>
        if child_matches idx child
        then Some (i :: innermost_path idx child)
        else for_children rest (S i)
    end in
  match for_children (children n) 0%nat with
  | Some p => p
  | None => []
  end.

(** The non-skippable tokens among [tokens[0 .. token_idx]], the last five
    of them. *)
Definition trailing_window (tokens : list Token) (token_idx : Z) : list Token :=
  last_n 5 (filter (λ t, skippable t = false) (take (Z.to_nat (token_idx + 1)) tokens)).

(** [token.start < idx <= token.end] *)
Definition holds_offset (idx : Z) (t : Token) : Prop :=
  start t < idx ∧ idx <= end_ t.

(** The re-anchoring as the specification words it: from an identifier or
    whitespace token, go back to the nearest earlier token that is neither
    (search below position [k]) and take that token's start as the offset. *)
Fixpoint prior_non_trivial (tokens : list Token) (k : nat) : option nat :=
  match k with
  | O => None
  | S j =>
      match tokens !! j with
      | Some t => if ident_or_whitespace t then prior_non_trivial tokens j else Some j
      | None => None
      end
  end.

(** Token spans in source order: every token starts where the one before
    it ends, or later, and no token ends before it starts. *)
Fixpoint spans_ordered_from (lo : Z) (tokens : list Token) : bool :=
  match tokens with
  | [] => true
  | t :: rest =>
      (lo <=? start t) && (start t <=? end_ t) && spans_ordered_from (end_ t) rest
  end.

Definition spans_ordered (tokens : list Token) : bool :=
  match tokens with
  | [] => true
  | t :: _ => spans_ordered_from (start t) tokens
  end.

Definition spec_anchor (tokens : list Token) (idx : Z) : option (Z * Z) :=
  let k := Z.to_nat (find_current_token idx tokens 0 0) in
  match tokens !! k with
  | Some t =>
      if ident_or_whitespace t then
        match prior_non_trivial tokens k with
        | Some j => (λ p, (start p, Z.of_nat j)) <$> tokens !! j
        | None => None
        end
      else Some (idx, Z.of_nat k)
  | None => None
  end.

End Resolution.

(** ** Sample inputs *)

Module Samples.
Import Py Tokenizer Errors Gir Lsp AstUtils Completions.

Definition src1 : string := "{ ab".

(** [{], a blank, the identifier [ab], end of file. *)
Definition tokens1 : list Token :=
  [ mkToken OP 0 1 src1; mkToken WHITESPACE 1 2 src1;
    mkToken IDENT 2 4 src1; mkToken EOF 4 4 src1 ].

Definition src2 : string := "a : b ; c".

Definition tokens2 : list Token :=
  [ mkToken IDENT 0 1 src2; mkToken WHITESPACE 1 2 src2; mkToken OP 2 3 src2;
    mkToken WHITESPACE 3 4 src2; mkToken IDENT 4 5 src2; mkToken WHITESPACE 5 6 src2;
    mkToken PUNCTUATION 6 7 src2; mkToken WHITESPACE 7 8 src2; mkToken IDENT 8 9 src2;
    mkToken EOF 9 9 src2 ].

Definition leaf (name : string) (s e : Z) (inc : bool) : AstNode :=
  mkAstNode (OtherNode name) (mkParseGroup s e) inc None None [].

(** An incomplete child ending at offset 5 and its right neighbour
    starting there. *)
Definition child_a : AstNode := leaf "A" 0 5 true.
Definition child_b : AstNode := leaf "B" 5 10 false.
Definition root_ab : AstNode :=
  mkAstNode UI (mkParseGroup 0 10) false None None [child_a; child_b].

(** A registry in which every completer names the class of the node it was
    called on. *)
Definition naming_completers (t : NodeType) : list Completer :=
  [ λ _ n _, gen_of_list
      [ mkCompletion (match node_type n with OtherNode s => s | _ => "other" end)
          CompletionItemKind.Keyword None None None None None ] ].

Definition lsp_choice : LanguageServer := mkLanguageServer true.
Definition lsp_plain : LanguageServer := mkLanguageServer false.

Definition bool_prop : Property := mkProperty BoolType None None.

Definition box_class : GirClass :=
  mkGirClass (Some [("visible", bool_prop); ("name", mkProperty StringType None None)])
             (Some [("notify", mkSignal None None)]).

Definition box_content : AstNode :=
  mkAstNode ObjectContent (mkParseGroup 0 10) false (Some box_class) None [].

(** A stand-in for the grammar engine: on the empty list it ends in the
    IndexError of reading a token that is not there; on any other list it
    finishes with a group and no recorded error. *)
Definition grammar_fetching_first (tokens : list Token) (text : string)
    : result (@Parser.ParseContext unit) :=
  match tokens with
  | [] => Raise IndexError
  | _ :: _ => Ok (Parser.mkParseContext (Some tt) [] [])
  end.

(** A grammar engine that rejects the empty stream with a compile error and
    otherwise records one syntax error in a finished group. *)
Definition grammar_rejecting_empty (tokens : list Token) (text : string)
    : result (@Parser.ParseContext unit) :=
  match tokens with
  | [] => Raise (CompileErrorExn (Errors.error "Unexpected end of file"))
  | _ :: _ => Ok (Parser.mkParseContext (Some tt) [Errors.error "Expected ;"] [])
  end.

(** The tokens of the document [using Gtk 4.0;]. *)
Definition src_using : string := "using Gtk 4.0;".

Definition tokens_using : list Token :=
  [ mkToken IDENT 0 5 src_using; mkToken WHITESPACE 5 6 src_using;
    mkToken IDENT 6 9 src_using; mkToken WHITESPACE 9 10 src_using;
    mkToken NUMBER 10 13 src_using; mkToken PUNCTUATION 13 14 src_using;
    mkToken EOF 14 14 src_using ].



(** Three responses, the first and the last with the same ID. *)
Definition responses_dup : list AdwResponseDialog.ExtAdwResponseDialogResponse :=
  [ AdwResponseDialog.mkResponse "ok" [AdwResponseDialog.StringValue "OK"];
    AdwResponseDialog.mkResponse "cancel" [AdwResponseDialog.StringValue "Cancel"];
    AdwResponseDialog.mkResponse "ok" [AdwResponseDialog.StringValue "Okay"] ].

(** The response [ok: "OK" suggested suggested]. *)
Definition response_twice_suggested : AdwResponseDialog.ExtAdwResponseDialogResponse :=
  AdwResponseDialog.mkResponse "ok"
    [ AdwResponseDialog.StringValue "OK";
      AdwResponseDialog.ExtAdwResponseDialogFlag "suggested";
      AdwResponseDialog.ExtAdwResponseDialogFlag "suggested" ].

(** A class with a signal whose name has a hyphen, and a content node of
    that class outside any Object. *)
Definition window_class : GirClass :=
  mkGirClass (Some []) (Some [("activate-default", mkSignal None None)]).

Definition window_content : AstNode :=
  mkAstNode ObjectContent (mkParseGroup 0 10) false (Some window_class) None [].

(** Lower-casing of the letters A to Z, which is what [str.lower] does on
    ASCII text; the class names of the samples are ASCII. *)
Definition ascii_lower_char (c : ascii) : ascii :=
  let n := nat_of_ascii c in
  if ((65 <=? n)%nat && (n <=? 90)%nat)%bool then ascii_of_nat (n + 32) else c.

Fixpoint ascii_lower (s : string) : string :=
  match s with
  | EmptyString => EmptyString
  | String c s' => String (ascii_lower_char c) (ascii_lower s')
  end.

(** The content node of [Button save_button { }]: its parent is the Object,
    whose ClassName child carries the [class_name] token and no [id] token
    (the object's ID is a token of the Object node itself). *)
Definition button_content : AstNode :=
  mkAstNode ObjectContent (mkParseGroup 20 30) false (Some box_class)
    (Some (mkParentView Object [mkClassNameTokens None (Some "Button")]))
    [].

(** A template block written without a type name: [template { }]. *)
Definition bare_template : GtkListItemFactory.ExtListItemFactory :=
  GtkListItemFactory.mkExtListItemFactory (mkRange 10 18) [].

End Samples.

(** * Properties *)

(** ** The trailing token window *)

Module WindowFacts.
Import Py Tokenizer Lsp AstUtils Completions Resolution.

Lemma last_n_length {A} (n : nat) (l : list A) : (length (last_n n l) ≤ n)%nat.
Proof. unfold last_n. rewrite length_drop. lia. Qed.

Lemma last_n_snoc {A} (n : nat) (l : list A) (x : A) :
  last_n (S n) (l ++ [x]) = last_n n l ++ [x].
Proof.
  unfold last_n. rewrite length_app. simpl.
  replace (length l + 1 - S n)%nat with (length l - n)%nat by lia.
  rewrite drop_app_le by lia. done.
Qed.

Lemma last_n_zero {A} (l : list A) : last_n 0 l = [].
Proof. unfold last_n. rewrite Nat.sub_0_r. apply drop_all. Qed.

Lemma collect_prev_tokens_spec tokens prev (k : nat) :
  (k ≤ length tokens)%nat → (length prev ≤ 5)%nat →
  collect_prev_tokens tokens prev k =
    Ok (last_n (5 - length prev)
          (filter (λ t, skippable t = false) (take k tokens)) ++ prev).
Proof.
  revert prev. induction k as [|k IH]; intros prev Hk Hp.
  - simpl. by case_bool_decide.
  - simpl. case_bool_decide as Hlt.
    + destruct (lookup_lt_is_Some_2 tokens k) as [t Ht]; [lia|].
      rewrite Ht. rewrite (take_S_r _ _ _ Ht), filter_app.
      destruct (skippable t) eqn:Hs.
      * rewrite IH by lia. rewrite filter_cons_False, filter_nil, app_nil_r; [done|].
        by rewrite Hs.
      * rewrite IH by (simpl; lia). rewrite filter_cons_True by done.
        rewrite filter_nil. simpl length.
        replace (5 - length prev)%nat with (S (5 - S (length prev))) by lia.
        rewrite last_n_snoc. by rewrite <- app_assoc.
    + replace (5 - length prev)%nat with 0%nat by lia. by rewrite last_n_zero.
Qed.


End WindowFacts.

(** ** Descent through the tree *)

Module ResolverFacts.
Import Py Tokenizer Lsp AstUtils Completions Resolution.

Section WithRegistry.
Variable completers : NodeType → list Completer.
Variable lsp : LanguageServer.
Variable tokens : list Token.

(** One level of [_complete], with the loop over the children read as a
    search for the first matching child. *)
Lemma _complete_unfold (n : AstNode) (idx token_idx : Z) :
  _complete completers lsp n tokens idx token_idx =
    match matching_child idx n with
    | Some child => _complete completers lsp child tokens idx token_idx
    | None => complete_here completers lsp n tokens token_idx
    end.
Proof.
  destruct n as [ty g inc gc p cs]. unfold matching_child. simpl.
  generalize (complete_here completers lsp (mkAstNode ty g inc gc p cs) tokens token_idx).
  intros fallback.
  induction cs as [|c cs IH]; simpl; [done|].
  destruct (child_matches idx c); [done|]. apply IH.
Qed.

Lemma child_matches_iff (idx : Z) (c : AstNode) :
  child_matches idx c = true ↔
    group_start (group c) <= idx
    ∧ (idx < group_end (group c) ∨ (idx = group_end (group c) ∧ incomplete c = true)).
Proof.
  unfold child_matches.
  rewrite andb_true_iff, orb_true_iff, andb_true_iff.
  rewrite Z.leb_le, Z.ltb_lt, Z.eqb_eq. tauto.
Qed.

(** [List.find] returns the first element that passes the test. *)
Lemma find_first {A} (f : A → bool) (l : list A) (x : A) :
  List.find f l = Some x →
  ∃ i, l !! i = Some x ∧ f x = true
       ∧ ∀ j y, (j < i)%nat → l !! j = Some y → f y = false.
Proof.
  induction l as [|a l IH]; simpl; [done|].
  destruct (f a) eqn:Hfa.
  - intros [= ->]. exists 0%nat. split_and!; [done..|]. intros; lia.
  - intros Hx. destruct (IH Hx) as (i & Hi & Hfx & Hmin).
    exists (S i). split_and!; [done..|].
    intros [|j] y Hj Hy; simpl in Hy.
    + by injection Hy as <-.
    + apply (Hmin j); [lia|done].
Qed.

Lemma find_none_iff {A} (f : A → bool) (l : list A) :
  List.find f l = None ↔ ∀ x, x ∈ l → f x = false.
Proof.
  induction l as [|a l IH]; simpl.
  - split; [|done]. intros _ x Hx. by apply elem_of_nil in Hx.
  - destruct (f a) eqn:Hfa.
    + split; [done|]. intros H. specialize (H a (list_elem_of_here _ _)). congruence.
    + rewrite IH. split.
      * intros H x [->|Hx]%elem_of_cons; auto.
      * intros H x Hx. apply H. by right.
Qed.

Lemma innermost_path_unfold (idx : Z) (n : AstNode) :
  innermost_path idx n =
    match list_find (λ c, child_matches idx c = true) (children n) with
    | Some (i, child) => i :: innermost_path idx child
    | None => []
    end.
Proof.
  destruct n as [ty g inc gc p cs]. simpl.
  change (match
            (fix for_children (cs0 : list AstNode) (i : nat) : option (list nat) :=
               match cs0 with
               | [] => None
               | child :: rest =>
                   if child_matches idx child
                   then Some (i :: innermost_path idx child)
                   else for_children rest (S i)
               end) cs 0%nat
          with Some p0 => p0 | None => [] end
          = match list_find (λ c, child_matches idx c = true) cs with
            | Some (i, child) => (0 + i)%nat :: innermost_path idx child
            | None => []
            end).
  generalize 0%nat as k.
  induction cs as [|c cs IH]; intros k; simpl; [done|].
  destruct (child_matches idx c) eqn:Hc.
  - rewrite decide_True by done. simpl. by rewrite Nat.add_0_r.
  - rewrite decide_False by congruence. rewrite IH.
    destruct (list_find _ cs) as [[i ch]|]; simpl; [|done].
    by rewrite Nat.add_succ_r.
Qed.

Lemma list_find_matching (idx : Z) (cs : list AstNode) :
  snd <$> list_find (λ c, child_matches idx c = true) cs
  = List.find (child_matches idx) cs.
Proof.
  induction cs as [|c cs IH]; simpl; [done|].
  destruct (child_matches idx c) eqn:Hc.
  - by rewrite decide_True.
  - rewrite decide_False by congruence. rewrite <- IH.
    by destruct (list_find _ cs) as [[??]|].
Qed.

(** [_complete] runs the completers of exactly one node, the one at the
    end of the path of first matching children. *)
Lemma _complete_innermost (idx token_idx : Z) (root : AstNode) :
  ∃ n, node_at root (innermost_path idx root) = Some n
     ∧ matching_child idx n = None
     ∧ _complete completers lsp root tokens idx token_idx
         = complete_here completers lsp n tokens token_idx.
Proof.
  induction root as [root IH] using AstNode_forall_ind.
  rewrite _complete_unfold, innermost_path_unfold.
  unfold matching_child. rewrite <- list_find_matching.
  destruct (list_find _ (children root)) as [[i c]|] eqn:Hfind; simpl.
  - apply list_find_Some in Hfind as (Hi & _ & _).
    rewrite Hi.
    rewrite Forall_forall in IH.
    apply IH. by eapply list_elem_of_lookup_2.
  - exists root. split_and!; [done| |done].
    unfold matching_child. rewrite <- list_find_matching. by rewrite Hfind.
Qed.

End WithRegistry.

(** C2 (as amended). At each level [_complete] descends into the first
    child, in child order, whose span contains the offset (the span end
    counting only for an incomplete child); children after it are not
    looked at. When no child matches, the completers of the current node
    are dispatched. *)
Theorem descent_rule (completers : NodeType → list Completer) (lsp : LanguageServer)
    (tokens : list Token) (n : AstNode) (idx token_idx : Z) :
  (∀ c, child_matches idx c = true ↔
          group_start (group c) <= idx
          ∧ (idx < group_end (group c)
             ∨ (idx = group_end (group c) ∧ incomplete c = true)))
  ∧ match matching_child idx n with
    | Some child =>
        (∃ i, children n !! i = Some child
              ∧ child_matches idx child = true
              ∧ ∀ j y, (j < i)%nat → children n !! j = Some y → child_matches idx y = false)
        ∧ _complete completers lsp n tokens idx token_idx
            = _complete completers lsp child tokens idx token_idx
    | None =>
        (∀ c, c ∈ children n → child_matches idx c = false)
        ∧ _complete completers lsp n tokens idx token_idx
            = complete_here completers lsp n tokens token_idx
    end.
Proof.
  split; [apply child_matches_iff|].
  rewrite _complete_unfold.
  destruct (matching_child idx n) as [child|] eqn:Hm; (split; [|done]).
  - by apply find_first.
  - by apply find_none_iff.
Qed.

(** C2 (as stated) fails: at offset 5 the incomplete child [A] = [0,5] and
    its neighbour [B] = [5,10] both contain the offset; [_complete]
    descends into [A] only, so containing the offset does not suffice for
    being descended into. *)
Lemma descent_skips_later_match :
  child_matches 5 Samples.child_b = true
  ∧ Samples.child_b ∈ children Samples.root_ab
  ∧ matching_child 5 Samples.root_ab = Some Samples.child_a
  ∧ (_complete Samples.naming_completers Samples.lsp_plain Samples.root_ab
       Samples.tokens2 5 4).1
     = [mkCompletion "A" CompletionItemKind.Keyword None None None None None]
  ∧ ¬ (∀ n idx c, c ∈ children n →
         (matching_child idx n = Some c ↔ child_matches idx c = true)).
Proof.
  split_and!; [done| |done|done|].
  - unfold Samples.root_ab. simpl. apply list_elem_of_further, list_elem_of_here.
  - intros H.
    assert (Hb : Samples.child_b ∈ children Samples.root_ab)
      by (simpl; apply list_elem_of_further, list_elem_of_here).
    apply (H _ 5) in Hb. destruct Hb as [_ Hb].
    specialize (Hb eq_refl). discriminate Hb.
Qed.

(** C9. Every suggestion of one request comes from the completers of a
    single node, the one at the end of the path of first matching children:
    the result is the dispatch on that node with the trailing window. It is
    the same under any other registry whose completers for the class of that
    node act alike on that node -- what is registered for other classes and
    what a completer would do on the enclosing node or another ancestor has
    no effect. As soon as a child matches the path is not empty, so the node
    is not the enclosing one. *)
Theorem single_node_dispatch (completers : NodeType → list Completer)
    (lsp : LanguageServer) (tokens : list Token) (root : AstNode) (idx token_idx : Z) :
  ∃ n, node_at root (innermost_path idx root) = Some n
     ∧ matching_child idx n = None
     ∧ _complete completers lsp root tokens idx token_idx
         = complete_here completers lsp n tokens token_idx
     ∧ (∀ prev, prev_tokens_of tokens token_idx = Ok prev →
          _complete completers lsp root tokens idx token_idx
            = dispatch completers lsp n prev)
     ∧ (∀ completers' : NodeType → list Completer,
          (∀ prev, map (λ c : Completer, c prev n lsp) (completers' (node_type n))
                   = map (λ c : Completer, c prev n lsp) (completers (node_type n))) →
          _complete completers' lsp root tokens idx token_idx
            = _complete completers lsp root tokens idx token_idx)
     ∧ (∀ child, matching_child idx root = Some child →
          innermost_path idx root ≠ []
          ∧ _complete completers lsp root tokens idx token_idx
              = _complete completers lsp child tokens idx token_idx).
Proof.
  destruct (_complete_innermost completers lsp tokens idx token_idx root)
    as (n & Hn & Hnone & Heq).
  exists n. split_and!; try done.
  - intros prev Hprev. rewrite Heq. unfold complete_here. by rewrite Hprev.
  - intros completers' Hsame.
    destruct (_complete_innermost completers' lsp tokens idx token_idx root)
      as (n' & Hn' & _ & Heq').
    rewrite Hn in Hn'. injection Hn' as <-.
    rewrite Heq, Heq'. unfold complete_here, dispatch.
    destruct (prev_tokens_of tokens token_idx) as [prev|x]; [|done].
    by rewrite Hsame.
  - intros child Hchild. split.
    + rewrite innermost_path_unfold.
      unfold matching_child in Hchild. rewrite <- list_find_matching in Hchild.
      by destruct (list_find _ (children root)) as [[i c]|].
    + rewrite _complete_unfold. by rewrite Hchild.
Qed.

End ResolverFacts.

(** ** Anchoring the request in the token stream *)

Module AnchorFacts.
Import Py Tokenizer Lsp AstUtils Completions Resolution.

Lemma index_nonneg {A} (l : list A) (i : Z) :
  0 <= i → Py.index l i = l !! Z.to_nat i.
Proof. intros Hi. unfold Py.index. by rewrite (Zle_imp_le_bool _ _ Hi). Qed.

Lemma index_below {A} (l : list A) (i : Z) :
  i < - Z.of_nat (length l) → Py.index l i = None.
Proof.
  intros Hi. unfold Py.index.
  destruct (Z.leb_spec 0 i); [lia|].
  destruct (Z.leb_spec (- Z.of_nat (length l)) i); [lia|done].
Qed.

Lemma index_minus_one {A} (l : list A) : Py.index l (-1) = last l.
Proof.
  unfold Py.index. simpl (0 <=? -1).
  destruct (Z.leb_spec (- Z.of_nat (length l)) (-1)) as [H|H].
  - rewrite last_lookup. f_equal. lia.
  - destruct l; [done|]. simpl in H. lia.
Qed.

(** The search of the first loop, started at position [i] with default [d]. *)
Lemma find_current_token_spec (idx : Z) (tokens : list Token) (i d : Z) :
  (find_current_token idx tokens i d = d
     ∧ ∀ t, t ∈ tokens → ¬ holds_offset idx t)
  ∨ (∃ (k : nat) t, tokens !! k = Some t ∧ holds_offset idx t
       ∧ find_current_token idx tokens i d = i + Z.of_nat k
       ∧ ∀ (k' : nat) t', (k < k')%nat → tokens !! k' = Some t' → ¬ holds_offset idx t').
Proof.
  revert i d. induction tokens as [|t tokens IH]; intros i d; simpl.
  - left. split; [done|]. intros t Ht. by apply elem_of_nil in Ht.
  - destruct (IH (i + 1)
                (if (start t <? idx) && (idx <=? end_ t) then i else d))
      as [[Heq Hnone]|(k & t' & Hk & Hh & Heq & Hlast)].
    + destruct ((start t <? idx) && (idx <=? end_ t)) eqn:Hc.
      * right. exists 0%nat, t. split_and!; [done| |lia|].
        -- apply andb_true_iff in Hc as [?%Z.ltb_lt ?%Z.leb_le]. by split.
        -- intros [|k'] t' Hlt Hk'; [lia|]. simpl in Hk'.
           apply Hnone. by eapply list_elem_of_lookup_2.
      * left. split; [done|]. intros t' [->|Ht']%elem_of_cons; [|by apply Hnone].
        intros [H1 H2]. apply andb_false_iff in Hc as [Hc|Hc].
        -- apply Z.ltb_ge in Hc. lia.
        -- apply Z.leb_gt in Hc. lia.
    + right. exists (S k), t'. split_and!; [done|done|lia|].
      intros [|k'] t'' Hlt Hk'; [lia|]. simpl in Hk'.
      apply (Hlast k'); [lia|done].
Qed.

Lemma find_current_token_range (idx : Z) (tokens : list Token) :
  0 <= find_current_token idx tokens 0 0
  ∧ (tokens ≠ [] → find_current_token idx tokens 0 0 < Z.of_nat (length tokens)).
Proof.
  destruct (find_current_token_spec idx tokens 0 0)
    as [[-> _]|(k & t & Hk & _ & -> & _)].
  - split; [done|]. destruct tokens; [done|]. simpl. lia.
  - apply lookup_lt_Some in Hk. lia.
Qed.

(** The second loop always ends: with a pair or with IndexError. *)
Lemma step_back_total (fuel : nat) (tokens : list Token) (idx token_idx : Z) :
  Py.index tokens token_idx = None
    ∨ token_idx + Z.of_nat (length tokens) < Z.of_nat fuel →
  ∃ r, step_back fuel tokens idx token_idx = Some r.
Proof.
  revert idx token_idx. induction fuel as [|fuel IH]; intros idx ti H; simpl.
  - destruct (Py.index tokens ti) as [t|] eqn:Ht; [|eauto].
    destruct H as [H|H]; [done|].
    rewrite index_below in Ht by lia. done.
  - destruct (Py.index tokens ti) as [t|] eqn:Ht; [|eauto].
    destruct (ident_or_whitespace t); [|eauto].
    apply IH. right. destruct H as [H|H]; [congruence|lia].
Qed.

(** What the second loop has done when it ends with a pair. *)
Lemma step_back_spec (fuel : nat) (tokens : list Token) (idx token_idx idx' ti' : Z) :
  step_back fuel tokens idx token_idx = Some (Ok (idx', ti')) →
  ti' <= token_idx
  ∧ (∃ t, Py.index tokens ti' = Some t ∧ ident_or_whitespace t = false)
  ∧ (∀ j, ti' < j <= token_idx →
       ∃ t, Py.index tokens j = Some t ∧ ident_or_whitespace t = true)
  ∧ (ti' = token_idx → idx' = idx)
  ∧ (ti' < token_idx →
       ∃ t, Py.index tokens (ti' + 1) = Some t ∧ idx' = start t).
Proof.
  revert idx token_idx.
  induction fuel as [|fuel IH]; intros idx ti; simpl;
    destruct (Py.index tokens ti) as [t|] eqn:Ht; try done;
    destruct (ident_or_whitespace t) eqn:Hiw; try done.
  - intros [= -> ->]. split_and!; [lia|eauto|intros; lia|done|intros; lia].
  - intros Hrec. destruct (IH _ _ Hrec) as (Hle & Hstop & Hrun & Hsame & Hmoved).
    split_and!; [lia|done| |intros; lia|].
    + intros j Hj. destruct (decide (j = ti)) as [->|Hne]; [eauto|].
      apply Hrun. lia.
    + intros _. destruct (decide (ti' = ti - 1)) as [->|Hne].
      * exists t. replace (ti - 1 + 1) with ti by lia. split; [done|]. by apply Hsame.
      * apply Hmoved. lia.
  - intros [= -> ->]. split_and!; [lia|eauto|intros; lia|done|intros; lia].
Qed.

(** In a stream that ends in a token that is neither an identifier nor
    whitespace (the end-of-file token), the second loop ends with a pair. *)
Lemma step_back_terminated (fuel : nat) (tokens : list Token) (idx token_idx : Z) (e : Token) :
  last tokens = Some e → ident_or_whitespace e = false →
  -1 <= token_idx < Z.of_nat (length tokens) →
  token_idx + 1 < Z.of_nat fuel →
  ∃ idx' ti', step_back fuel tokens idx token_idx = Some (Ok (idx', ti')) ∧ -1 <= ti'.
Proof.
  intros Hlast He. revert idx token_idx.
  induction fuel as [|fuel IH]; intros idx ti Hti Hfuel; [lia|]. simpl.
  destruct (decide (ti = -1)) as [->|Hne].
  - rewrite index_minus_one, Hlast, He. exists idx, (-1). split; [done|lia].
  - rewrite index_nonneg by lia.
    destruct (lookup_lt_is_Some_2 tokens (Z.to_nat ti)) as [t Ht]; [lia|].
    rewrite Ht. destruct (ident_or_whitespace t); [|exists idx, ti; split; [done|lia]].
    apply IH; lia.
Qed.

(** The token index that [complete] hands to [_complete] lies inside the
    stream (or is negative, after a step back from position 0). *)
Lemma anchor_token_idx_in_range (tokens : list Token) (idx idx' ti' : Z) :
  anchor tokens idx = Some (Ok (idx', ti')) → ti' < Z.of_nat (length tokens).
Proof.
  intros Ha. unfold anchor in Ha.
  destruct (step_back_spec _ _ _ _ _ _ Ha) as (Hle & _).
  destruct tokens as [|t tokens]; [done|].
  destruct (find_current_token_range idx (t :: tokens)) as [_ Hhi].
  specialize (Hhi ltac:(done)). lia.
Qed.

(** C3 (as amended). [complete] selects the last token with
    [start < offset <= end], token 0 when there is none. While the selected
    token is an identifier or whitespace it moves the offset to the start of
    that token and goes one token back, a negative index reading from the
    end of the list. The loop always ends (with IndexError at worst); when
    it ends normally the token it stopped at is neither identifier nor
    whitespace, every token it passed is one, and the offset is the start
    of the earliest token passed -- not the start of the token stopped at --
    or unchanged if none was passed; the innermost node is then resolved
    from that offset and token index. In a stream whose last token is
    neither identifier nor whitespace the loop ends normally. *)
Theorem complete_anchoring (completers : NodeType → list Completer)
    (lsp : LanguageServer) (root : AstNode) (tokens : list Token) (idx : Z) :
  ((∃ (k : nat) t, tokens !! k = Some t ∧ holds_offset idx t
       ∧ find_current_token idx tokens 0 0 = Z.of_nat k
       ∧ ∀ (k' : nat) t', (k < k')%nat → tokens !! k' = Some t' → ¬ holds_offset idx t')
   ∨ (find_current_token idx tokens 0 0 = 0
       ∧ ∀ t, t ∈ tokens → ¬ holds_offset idx t))
  ∧ (∃ r, anchor tokens idx = Some r)
  ∧ (∀ idx' ti', anchor tokens idx = Some (Ok (idx', ti')) →
       ti' <= find_current_token idx tokens 0 0
       ∧ (∃ t, Py.index tokens ti' = Some t ∧ ident_or_whitespace t = false)
       ∧ (∀ j, ti' < j <= find_current_token idx tokens 0 0 →
            ∃ t, Py.index tokens j = Some t ∧ ident_or_whitespace t = true)
       ∧ (ti' = find_current_token idx tokens 0 0 → idx' = idx)
       ∧ (ti' < find_current_token idx tokens 0 0 →
            ∃ t, Py.index tokens (ti' + 1) = Some t ∧ idx' = start t)
       ∧ complete completers lsp root tokens idx
           = Some (_complete completers lsp root tokens idx' ti'))
  ∧ (∀ e, last tokens = Some e → ident_or_whitespace e = false →
       ∃ idx' ti', anchor tokens idx = Some (Ok (idx', ti')) ∧ -1 <= ti').
Proof.
  pose proof (find_current_token_range idx tokens) as [Hlo Hhi].
  split_and!.
  - destruct (find_current_token_spec idx tokens 0 0)
      as [[Heq Hnone]|(k & t & Hk & Hh & Heq & Hlast)].
    + right. by split.
    + left. exists k, t. split_and!; [done|done|lia|done].
  - unfold anchor. apply step_back_total.
    destruct tokens as [|t tokens]; [by left|right].
    specialize (Hhi ltac:(done)). simpl length in *. lia.
  - intros idx' ti' Ha.
    destruct (step_back_spec _ _ _ _ _ _ Ha) as (H1 & H2 & H3 & H4 & H5).
    split_and!; try done.
    unfold complete. by rewrite Ha.
  - intros e Hlast He. unfold anchor.
    assert (tokens ≠ []) as Hne by (intros ->; done).
    specialize (Hhi Hne).
    apply (step_back_terminated _ _ _ _ e); [done|done|lia|].
    destruct tokens; [done|]. simpl length in *. lia.
Qed.

(** C3 (as stated) fails: in [{ ab] with the cursor inside [ab], the loop
    passes the identifier and the blank and stops at [{]; the offset it
    leaves is 1, the start of the blank, whereas the start of the prior
    non-trivial token [{] is 0. *)
Lemma anchor_is_not_prior_token_start :
  anchor Samples.tokens1 3 = Some (Ok (1, 0))
  ∧ spec_anchor Samples.tokens1 3 = Some (0, 0)
  ∧ anchor Samples.tokens1 3 ≠ Some (Ok (0, 0)).
Proof. split_and!; [done|done|discriminate]. Qed.

End AnchorFacts.

(** ** The window of a request *)

Module RequestWindowFacts.
Import Py Tokenizer Lsp AstUtils Completions Resolution.
Import WindowFacts ResolverFacts AnchorFacts.







End RequestWindowFacts.

(** ** The property and signal generators *)

Module GeneratorFacts.
Import Py Tokenizer Gir Lsp AstUtils Completions.

Section WithAnnotations.
Variable is_property_translated : Property → bool.

Lemma property_completion_bool (lsp : LanguageServer) (prop_name : string)
    (prop : Property) :
  prop_type prop = BoolType →
  property_completion is_property_translated lsp prop_name prop
    = property_item prop_name prop
        (if client_supports_completion_choice lsp
         then prop_name +:+ ": ${1|true,false|};"
         else prop_name +:+ ": $0;").
Proof.
  intros Hty. unfold property_completion. rewrite Hty. simpl.
  by destruct (client_supports_completion_choice lsp).
Qed.

Lemma property_completion_sort_text (lsp : LanguageServer) (prop_name : string)
    (prop : Property) :
  sort_text (property_completion is_property_translated lsp prop_name prop)
    = Some ("0 " +:+ prop_name).
Proof.
  unfold property_completion.
  repeat match goal with |- context [if ?b then _ else _] => destruct b end; done.
Qed.

Lemma property_completer_items (lsp : LanguageServer) (ast_node : AstNode)
    (mv : list string) (cls : GirClass) (props : list (string * Property)) :
  gir_class ast_node = Some cls → properties cls = Some props →
  property_completer is_property_translated lsp ast_node mv
    = gen_of_list
        (map (λ item, property_completion is_property_translated lsp item.1 item.2)
             props).
Proof. intros Hc Hp. unfold property_completer. by rewrite Hc, Hp. Qed.

Lemma property_completer_sort_text (lsp : LanguageServer) (ast_node : AstNode)
    (mv : list string) (c : Completion) :
  c ∈ (property_completer is_property_translated lsp ast_node mv).1 →
  sort_text c = Some ("0 " +:+ label c).
Proof.
  unfold property_completer.
  destruct (gir_class ast_node) as [cls|]; [|by intros ?%elem_of_nil].
  destruct (properties cls) as [props|]; [|by intros ?%elem_of_nil].
  simpl. intros ([name prop] & -> & _)%list_elem_of_fmap. simpl.
  rewrite property_completion_sort_text. f_equal. f_equal.
  unfold property_completion.
  repeat match goal with |- context [if ?b then _ else _] => destruct b end; done.
Qed.

Lemma signal_completer_sort_text (str_lower : string → string)
    (lsp : LanguageServer) (ast_node : AstNode) (mv : list string) (c : Completion) :
  c ∈ (signal_completer str_lower lsp ast_node mv).1 →
  sort_text c = Some ("1 " +:+ label c).
Proof.
  unfold signal_completer.
  destruct (gir_class ast_node) as [cls|]; [|by intros ?%elem_of_nil].
  destruct (signals cls) as [[|s sigs]|]; [by intros ?%elem_of_nil| |by intros ?%elem_of_nil].
  destruct (signal_handler_prefix str_lower ast_node) as [name|x]; [|by intros ?%elem_of_nil].
  unfold gen_of_list, fst.
  by intros ([sname sg] & -> & _)%list_elem_of_fmap.
Qed.

End WithAnnotations.

(** A key that starts with the digit 0 sorts before a key that starts with
    the digit 1. *)
Lemma zero_before_one (a b : string) :
  String.compare ("0 " +:+ a) ("1 " +:+ b) = Lt.
Proof. done. Qed.

(** C5. For a boolean property, the suggestion of [property_completer] at
    the property's position carries the two-choice picker between [true]
    and [false] when the client supports choice completions, and the empty
    value placeholder when it does not. *)
Theorem boolean_property_snippet (is_property_translated : Property → bool)
    (lsp : LanguageServer) (ast_node : AstNode) (mv : list string)
    (cls : GirClass) (props : list (string * Property))
    (i : nat) (prop_name : string) (prop : Property) :
  gir_class ast_node = Some cls →
  properties cls = Some props →
  props !! i = Some (prop_name, prop) →
  prop_type prop = BoolType →
  (property_completer is_property_translated lsp ast_node mv).2 = None
  ∧ ∃ c, (property_completer is_property_translated lsp ast_node mv).1 !! i = Some c
       ∧ label c = prop_name
       ∧ snippet c =
           Some (if client_supports_completion_choice lsp
                 then prop_name +:+ ": ${1|true,false|};"
                 else prop_name +:+ ": $0;").
Proof.
  intros Hc Hp Hi Hty.
  rewrite (property_completer_items _ _ _ _ _ _ Hc Hp). split; [done|].
  unfold gen_of_list, fst. rewrite list_lookup_fmap, Hi. simpl.
  eexists. split; [done|].
  by rewrite property_completion_bool.
Qed.

Lemma boolean_property_snippet_witness :
  ((property_completer (λ _, false) Samples.lsp_choice Samples.box_content []).2 = None
   ∧ ∃ c, (property_completer (λ _, false) Samples.lsp_choice Samples.box_content []).1
            !! 0%nat = Some c
        ∧ label c = "visible"
        ∧ snippet c =
            Some (if client_supports_completion_choice Samples.lsp_choice
                  then "visible" +:+ ": ${1|true,false|};"
                  else "visible" +:+ ": $0;")).
Proof.
  apply (boolean_property_snippet (λ _, false) Samples.lsp_choice Samples.box_content []
           Samples.box_class
           [("visible", Samples.bool_prop); ("name", mkProperty StringType None None)]
           0 "visible" Samples.bool_prop); reflexivity.
Defined.

(** C10. Every suggestion of [property_completer] has the sort key
    ["0 " + label], every suggestion of [signal_completer] the sort key
    ["1 " + label]; so each property suggestion sorts strictly before each
    signal suggestion in the lexicographic order of the keys. *)
Theorem properties_rank_before_signals (is_property_translated : Property → bool)
    (str_lower : string → string)
    (lsp : LanguageServer) (ast_node : AstNode) (mv : list string) :
  (∀ p, p ∈ (property_completer is_property_translated lsp ast_node mv).1 →
        sort_text p = Some ("0 " +:+ label p))
  ∧ (∀ s, s ∈ (signal_completer str_lower lsp ast_node mv).1 →
        sort_text s = Some ("1 " +:+ label s))
  ∧ (∀ p s, p ∈ (property_completer is_property_translated lsp ast_node mv).1 →
            s ∈ (signal_completer str_lower lsp ast_node mv).1 →
            ∃ kp ks, sort_text p = Some kp ∧ sort_text s = Some ks
                   ∧ String.compare kp ks = Lt).
Proof.
  split_and!.
  - apply property_completer_sort_text.
  - apply signal_completer_sort_text.
  - intros p s Hp Hs.
    apply property_completer_sort_text in Hp.
    apply signal_completer_sort_text in Hs.
    eexists _, _. split_and!; [done..|]. apply zero_before_one.
Qed.

End GeneratorFacts.

(** ** Validators of the response dialog *)

Module ResponseFacts.
Import Py Errors Validation AdwResponseDialog.

Lemma mjoin_imap_nil {A B} (g : nat → A → list B) (l : list A) :
  (∀ k c, l !! k = Some c → g k c = []) → mjoin (imap g l) = [].
Proof.
  revert g. induction l as [|a l IH]; intros g Hg; [done|].
  rewrite imap_cons. simpl. rewrite (Hg 0%nat a) by done. simpl.
  apply IH. intros k c Hk. by apply (Hg (S k)).
Qed.

(** When a single position reports, the collected list is its report. *)
Lemma mjoin_imap_single {A B} (g : nat → A → list B) (l : list A) (j : nat) (cj : A) :
  l !! j = Some cj →
  (∀ k c, k ≠ j → l !! k = Some c → g k c = []) →
  mjoin (imap g l) = g j cj.
Proof.
  revert g j. induction l as [|a l IH]; intros g j Hj Hg; [done|].
  rewrite imap_cons. simpl. destruct j as [|j]; simpl in Hj.
  - injection Hj as ->. rewrite mjoin_imap_nil; [by rewrite app_nil_r|].
    intros k c Hk. by apply (Hg (S k)).
  - rewrite (Hg 0%nat a) by done. simpl.
    apply (IH (g ∘ S) j Hj). intros k c Hne Hk. apply (Hg (S k)); [lia|done].
Qed.

(** The modelled uniqueness check reports exactly when an earlier sibling
    of the same class passes the check. *)
Lemma validate_unique_in_parent_reports {Node} (siblings : list Node) (pos : nat)
    (same_type check : Node → bool) (error : string) :
  reported (validate_unique_in_parent siblings pos same_type error check)
    = if existsb (λ child, same_type child && check child) (take pos siblings)
      then [Errors.error error] else [].
Proof. unfold validate_unique_in_parent. by destruct (existsb _ _). Qed.

Lemma existsb_take_iff {Node} (f : Node → bool) (siblings : list Node) (pos : nat) :
  existsb f (take pos siblings) = true
  ↔ ∃ k c, (k < pos)%nat ∧ siblings !! k = Some c ∧ f c = true.
Proof.
  rewrite existsb_exists. split.
  - intros (c & Hin & Hf). apply list_elem_of_In, elem_of_take in Hin as (k & Hk & Hlt).
    eauto.
  - intros (k & c & Hlt & Hk & Hf). exists c. split; [|done].
    apply list_elem_of_In, elem_of_take. eauto.
Qed.

(** A response is reported as a duplicate exactly when an earlier response
    of the block has its ID. *)
Lemma unique_in_parent_reports (responses : list ExtAdwResponseDialogResponse)
    (pos : nat) (self : ExtAdwResponseDialogResponse) :
  (∃ k c, (k < pos)%nat ∧ responses !! k = Some c ∧ id c = id self) →
  reported (unique_in_parent responses pos self)
    = [Errors.error (duplicate_message (id self))].
Proof.
  intros (k & c & Hlt & Hk & Hc).
  unfold unique_in_parent. rewrite validate_unique_in_parent_reports.
  replace (existsb _ _) with true; [done|]. symmetry.
  apply existsb_take_iff. exists k, c. split_and!; [done..|].
  simpl. by apply String.eqb_eq.
Qed.

Lemma unique_in_parent_silent (responses : list ExtAdwResponseDialogResponse)
    (pos : nat) (self : ExtAdwResponseDialogResponse) :
  (∀ k c, (k < pos)%nat → responses !! k = Some c → id c ≠ id self) →
  reported (unique_in_parent responses pos self) = [].
Proof.
  intros Hnone.
  unfold unique_in_parent. rewrite validate_unique_in_parent_reports.
  destruct (existsb _ _) eqn:Hex; [|done].
  apply existsb_take_iff in Hex as (k & c & Hlt & Hk & Hc). simpl in Hc.
  apply String.eqb_eq in Hc. by destruct (Hnone k c).
Qed.

(** C6. When exactly two responses of a block share an ID, the duplicate
    check reports one diagnostic in the whole block, on the second of the
    two; the first gets none. *)
Theorem duplicate_reported_once (responses : list ExtAdwResponseDialogResponse)
    (i j : nat) (ri rj : ExtAdwResponseDialogResponse) :
  (i < j)%nat →
  responses !! i = Some ri →
  responses !! j = Some rj →
  id ri = id rj →
  (∀ k l rk rl, (k < l)%nat → responses !! k = Some rk → responses !! l = Some rl →
                id rk = id rl → k = i ∧ l = j) →
  duplicate_diagnostics responses = [(j, Errors.error (duplicate_message (id rj)))]
  ∧ reported (unique_in_parent responses i ri) = []
  ∧ reported (unique_in_parent responses j rj)
      = [Errors.error (duplicate_message (id rj))].
Proof.
  intros Hij Hi Hj Hid Honly.
  assert (Hrep : reported (unique_in_parent responses j rj)
                 = [Errors.error (duplicate_message (id rj))]).
  { apply unique_in_parent_reports. exists i, ri. by split_and!. }
  assert (Hsil : ∀ k c, k ≠ j → responses !! k = Some c →
                        reported (unique_in_parent responses k c) = []).
  { intros k c Hne Hk. apply unique_in_parent_silent.
    intros l cl Hlt Hl Heq. destruct (Honly l k cl c Hlt Hl Hk Heq). congruence. }
  split_and!; [|apply Hsil; [lia|done]|done].
  unfold duplicate_diagnostics, reported_by_position.
  rewrite (mjoin_imap_single _ _ j rj Hj).
  - by rewrite Hrep.
  - intros k c Hne Hk. by rewrite Hsil.
Qed.

Lemma duplicate_reported_once_witness :
  duplicate_diagnostics Samples.responses_dup
    = [(2%nat, Errors.error (duplicate_message (id (mkResponse "ok" [StringValue "Okay"]))))]
  ∧ reported (unique_in_parent Samples.responses_dup 0
                (mkResponse "ok" [StringValue "OK"])) = []
  ∧ reported (unique_in_parent Samples.responses_dup 2
                (mkResponse "ok" [StringValue "Okay"]))
      = [Errors.error (duplicate_message (id (mkResponse "ok" [StringValue "Okay"])))].
Proof.
  apply (duplicate_reported_once Samples.responses_dup 0 2
           (mkResponse "ok" [StringValue "OK"]) (mkResponse "ok" [StringValue "Okay"]));
    [lia|reflexivity|reflexivity|reflexivity|].
  intros k l rk rl Hlt Hk Hl Heq.
  destruct k as [|[|[|k]]], l as [|[|[|l]]]; simpl in Hk, Hl;
    try lia; try discriminate;
    injection Hk as <-; injection Hl as <-; try discriminate Heq; done.
Defined.

(** The exclusivity validator reports a flag exactly when the flag is
    [destructive] or [suggested] and an earlier flag of the response is one
    of the two -- the same one included. *)
Lemma exclusive_reports_iff (siblings : list ResponseChild) (pos : nat) (f : string) :
  reported (exclusive siblings pos (ExtAdwResponseDialogFlag f))
    = [Errors.error exclusive_message]
  ↔ in_destructive_suggested f = true
    ∧ ∃ k g, (k < pos)%nat ∧ siblings !! k = Some (ExtAdwResponseDialogFlag g)
             ∧ in_destructive_suggested g = true.
Proof.
  unfold exclusive. simpl.
  destruct (in_destructive_suggested f); [|by split; [|intros [? _]]].
  rewrite validate_unique_in_parent_reports.
  destruct (existsb _ _) eqn:Hex.
  - apply existsb_take_iff in Hex as (k & c & Hlt & Hk & Hc).
    apply andb_true_iff in Hc as [Hflag Hc]. destruct c as [v|g]; [done|].
    split; [|done]. intros _. split; [done|]. by exists k, g.
  - split; [done|]. intros (_ & k & g & Hlt & Hk & Hg).
    assert (existsb (λ child, is_flag child && in_destructive_suggested (flag_of child))
              (take pos siblings) = true) as Ht; [|congruence].
    apply existsb_take_iff. exists k, (ExtAdwResponseDialogFlag g). by split_and!.
Qed.

(** C7, at the failing input: a response written with [suggested] twice
    and without [destructive] gets the diagnostic "'suggested' and
    'destructive' are exclusive" on its second flag. *)
Theorem exclusive_reported_without_destructive :
  ("destructive" ∉ flags Samples.response_twice_suggested)
  ∧ exclusive_diagnostics Samples.response_twice_suggested
      = [(2%nat, Errors.error "'suggested' and 'destructive' are exclusive")].
Proof.
  split; [|done].
  unfold Samples.response_twice_suggested, flags. simpl.
  intros H. repeat (apply elem_of_cons in H as [H|H]; [discriminate H|]).
  by apply elem_of_nil in H.
Qed.

End ResponseFacts.

(** ** The template block of a list item factory *)

Module FactoryFacts.
Import Py Errors Validation GtkListItemFactory.

(** C8. A template block without a type name makes [type_name_upgrade]
    report one diagnostic of the upgrade-warning class -- a warning, not a
    fatal error -- that carries the range of the [template] keyword and
    exactly one quick-fix, whose replacement text is [template ListItem].
    The block is still accepted: the type check raises nothing and the
    class of the block falls back to Gtk.ListItem. *)
Theorem missing_type_name_is_a_warning (get_type : string → string → string)
    (self : ExtListItemFactory) :
  type_names self = [] →
  (∃ d, reported (type_name_upgrade self) = [d]
      ∧ err_class d = UpgradeWarningClass
      ∧ is_warning (err_class d) = true
      ∧ fatal d = false
      ∧ range d = Some (id_range self)
      ∧ (∃ a, actions d = [a] ∧ replace_with a = "template ListItem"))
  ∧ type_is_list_item self = Ok tt
  ∧ gir_class get_type self = get_type "ListItem" "Gtk".
Proof.
  intros Hnone.
  unfold type_name_upgrade, type_name_upgrade_body, type_is_list_item, gir_class,
    type_name.
  rewrite Hnone. simpl. split_and!; [|done..].
  eexists. split_and!; [done..|]. by eexists.
Qed.

Lemma missing_type_name_is_a_warning_witness :
  (∃ d, reported (type_name_upgrade Samples.bare_template) = [d]
      ∧ err_class d = UpgradeWarningClass
      ∧ is_warning (err_class d) = true
      ∧ fatal d = false
      ∧ range d = Some (id_range Samples.bare_template)
      ∧ (∃ a, actions d = [a] ∧ replace_with a = "template ListItem"))
  ∧ type_is_list_item Samples.bare_template = Ok tt
  ∧ gir_class (λ name ns, ns +:+ "." +:+ name) Samples.bare_template
      = (λ name ns, ns +:+ "." +:+ name) "ListItem" "Gtk".
Proof.
  apply (missing_type_name_is_a_warning (λ name ns, ns +:+ "." +:+ name)
           Samples.bare_template).
  reflexivity.
Defined.

End FactoryFacts.

(** ** The boundary of [parse] *)

Module ParseFacts.
Import Py Tokenizer Errors Parser.

Section Boundary.
Context {ParseGroup UI : Type}.
Variable run_grammar : list Token → string → result (@ParseContext ParseGroup).
Variable to_ast : ParseGroup → result UI.
Variable ast_errors ast_warnings : UI → result (list CompileError).

Lemma parse_of_body (tokens : list Token) :
  compile_errors_only (parse_body run_grammar to_ast ast_errors ast_warnings tokens) →
  ∃ out, parse run_grammar to_ast ast_errors ast_warnings tokens = Ok out.
Proof.
  unfold parse. destruct (parse_body _ _ _ _ _) as [out|[]]; simpl; eauto; done.
Qed.

Lemma parse_uncaught (tokens : list Token) (x : exn) :
  parse_body run_grammar to_ast ast_errors ast_warnings tokens = Raise x →
  ¬ caught x →
  parse run_grammar to_ast ast_errors ast_warnings tokens = Raise x.
Proof.
  unfold parse. intros -> Hx. destruct x; simpl in Hx; tauto.
Qed.

End Boundary.

(** C1 (as amended). On every token list on which the grammar engine
    either finishes with a last group or raises CompileError or
    MultipleErrors, and on which AST construction and the collection of the
    node errors and warnings, as far as they are reached, either finish or
    raise one of these two, [parse] returns a triple: a tree together with
    the collected errors (None when there are none) and warnings, or no tree
    together with the errors raised. When the engine rejects the token list
    with a CompileError the result is no tree and that single error; with
    MultipleErrors, no tree and those errors. *)
Theorem parse_returns_triple {ParseGroup UI : Type}
    (run_grammar : list Token → string → result (@ParseContext ParseGroup))
    (to_ast : ParseGroup → result UI)
    (ast_errors ast_warnings : UI → result (list CompileError))
    (tokens : list Token) :
  match run_grammar tokens (original_text tokens) with
  | Raise x => caught x
  | Ok ctx =>
      match last_group ctx with
      | None => False
      | Some group =>
          match to_ast group with
          | Raise x => caught x
          | Ok ast_node =>
              match ast_errors ast_node with
              | Raise x => caught x
              | Ok _ => compile_errors_only (ast_warnings ast_node)
              end
          end
      end
  end →
  (∃ root errors warnings,
      parse run_grammar to_ast ast_errors ast_warnings tokens
        = Ok (root, errors, warnings)
      ∧ (root = None → is_Some errors ∧ warnings = [])
      ∧ (is_Some root → errors ≠ Some []))
  ∧ (∀ e, run_grammar tokens (original_text tokens) = Raise (CompileErrorExn e) →
          parse run_grammar to_ast ast_errors ast_warnings tokens
            = Ok (None, Some [e], []))
  ∧ (∀ es, run_grammar tokens (original_text tokens) = Raise (MultipleErrorsExn es) →
           parse run_grammar to_ast ast_errors ast_warnings tokens
             = Ok (None, Some es, [])).
Proof.
  intros Hrun.
  split_and!.
  - unfold parse, parse_body.
    destruct (run_grammar tokens (original_text tokens)) as [ctx|x]; simpl.
    + destruct (last_group ctx) as [g|]; [|done].
      destruct (to_ast g) as [node|x]; simpl.
      * destruct (ast_errors node) as [es|x]; simpl.
        -- destruct (ast_warnings node) as [ws|x]; simpl.
           ++ eexists _, _, _. split_and!; [done|done|].
              intros _. case_bool_decide as Hlen; [|done].
              intros [= Heq]. by rewrite Heq in Hlen.
           ++ destruct x; simpl in Hrun; try done;
                (eexists _, _, _; split_and!; [done|by eauto|by intros [??]]).
        -- destruct x; simpl in Hrun; try done;
             (eexists _, _, _; split_and!; [done|by eauto|by intros [??]]).
      * destruct x; simpl in Hrun; try done;
          (eexists _, _, _; split_and!; [done|by eauto|by intros [??]]).
    + destruct x; simpl in Hrun; try done;
        (eexists _, _, _; split_and!; [done|by eauto|by intros [??]]).
  - intros e He. unfold parse, parse_body. by rewrite He.
  - intros es He. unfold parse, parse_body. by rewrite He.
Qed.

Lemma parse_returns_triple_witness :
  (∃ root errors warnings,
      parse Samples.grammar_fetching_first (λ _ : unit, Ok tt)
            (λ _, Ok []) (λ _, Ok []) Samples.tokens_using
        = Ok (root, errors, warnings)
      ∧ (root = None → is_Some errors ∧ warnings = [])
      ∧ (is_Some root → errors ≠ Some []))
  ∧ (∀ e, Samples.grammar_fetching_first Samples.tokens_using
            (original_text Samples.tokens_using) = Raise (CompileErrorExn e) →
          parse Samples.grammar_fetching_first (λ _ : unit, Ok tt)
                (λ _, Ok []) (λ _, Ok []) Samples.tokens_using
            = Ok (None, Some [e], []))
  ∧ (∀ es, Samples.grammar_fetching_first Samples.tokens_using
             (original_text Samples.tokens_using) = Raise (MultipleErrorsExn es) →
           parse Samples.grammar_fetching_first (λ _ : unit, Ok tt)
                 (λ _, Ok []) (λ _, Ok []) Samples.tokens_using
             = Ok (None, Some es, [])).
Proof.
  apply (parse_returns_triple Samples.grammar_fetching_first (λ _ : unit, Ok tt)
           (λ _, Ok []) (λ _, Ok []) Samples.tokens_using).
  simpl. exact I.
Defined.

(** C1 (as stated) fails: [parse] catches CompileError and MultipleErrors
    only. The IndexError raised when the grammar looks for a token in the
    empty token list leaves [parse]. *)
Lemma parse_lets_other_exceptions_escape :
  parse Samples.grammar_fetching_first (λ _ : unit, Ok tt) (λ _, Ok []) (λ _, Ok []) []
    = Raise IndexError.
Proof. done. Qed.

End ParseFacts.

(** ** The embedding run on the sample inputs *)

Module Evaluations.
Import Py Tokenizer Errors Gir Lsp AstUtils Completions Resolution.

(** In [a : b ; c] with the cursor right after [b], the request is anchored
    at the colon (offset 3, token 2) and resolved inside the child [A]. *)
Example complete_on_sample :
  anchor Samples.tokens2 5 = Some (Ok (3, 2))
  ∧ complete Samples.naming_completers Samples.lsp_plain Samples.root_ab Samples.tokens2 5
    = Some (gen_of_list
              [mkCompletion "A" CompletionItemKind.Keyword None None None None None]).
Proof. by split. Qed.

(** A cursor inside the first token, an identifier: the index steps to -1,
    which reads the end-of-file token and stops there. *)
Example anchor_wraps_to_last_token :
  anchor [mkToken IDENT 0 2 "ab"; mkToken EOF 2 2 "ab"] 1 = Some (Ok (0, -1)).
Proof. done. Qed.

(** Without a closing token the stepping runs off the list. *)
Example anchor_on_unterminated_stream :
  anchor [mkToken IDENT 0 2 "ab"] 1 = Some (Raise IndexError)
  ∧ anchor [] 1 = Some (Raise IndexError).
Proof. by split. Qed.

(** Six non-skippable tokens precede the end of [a : b ; c]; the window
    keeps the last five. *)
Example trailing_window_on_sample :
  start <$> trailing_window Samples.tokens2 9 = [2; 4; 6; 8; 9]
  ∧ prev_tokens_of Samples.tokens2 9 = Ok (trailing_window Samples.tokens2 9).
Proof. by split. Qed.

(** The spans of [a : b ; c] are in source order, and with the cursor right
    after [b] that token holds the offset. *)
Example spans_ordered_on_sample :
  spans_ordered Samples.tokens2 = true
  ∧ Samples.tokens2 !! 4%nat = Some (mkToken IDENT 4 5 Samples.src2)
  ∧ holds_offset 5 (mkToken IDENT 4 5 Samples.src2).
Proof. split_and!; [done|done|]. unfold holds_offset. simpl. lia. Qed.

(** An index past the end of the stream raises. *)
Example trailing_window_out_of_range :
  prev_tokens_of Samples.tokens2 10 = Raise IndexError.
Proof. done. Qed.

Example signal_completer_on_sample :
  signal_completer Samples.ascii_lower Samples.lsp_plain Samples.box_content []
  = gen_of_list
      [mkCompletion "notify" CompletionItemKind.Event (Some "1 notify")
         (Some "notify => \$${1:$on_notify}()$0;") None None None].
Proof. done. Qed.

Example property_completer_on_sample :
  snippet <$> (property_completer (λ _, false) Samples.lsp_choice Samples.box_content []).1
  = [Some "visible: ${1|true,false|};"; Some ("name: " +:+ dquote +:+ "$0" +:+ dquote +:+ ";")].
Proof. done. Qed.

(** [suggested] followed by [destructive]: reported on the second flag. *)
Example exclusive_on_both_flags :
  AdwResponseDialog.exclusive_diagnostics
    (AdwResponseDialog.mkResponse "ok"
       [ AdwResponseDialog.StringValue "OK";
         AdwResponseDialog.ExtAdwResponseDialogFlag "suggested";
         AdwResponseDialog.ExtAdwResponseDialogFlag "destructive" ])
  = [(2%nat, Errors.error AdwResponseDialog.exclusive_message)].
Proof. done. Qed.

Example exclusive_on_one_flag :
  AdwResponseDialog.exclusive_diagnostics
    (AdwResponseDialog.mkResponse "ok"
       [ AdwResponseDialog.StringValue "OK";
         AdwResponseDialog.ExtAdwResponseDialogFlag "suggested";
         AdwResponseDialog.ExtAdwResponseDialogFlag "disabled" ])
  = [].
Proof. done. Qed.

(** A finished parse with one recorded syntax error: tree and errors. *)
Example parse_on_sample :
  Parser.parse Samples.grammar_rejecting_empty (λ _ : unit, Ok tt) (λ _, Ok []) (λ _, Ok [])
    Samples.tokens1
  = Ok (Some tt, Some [Errors.error "Expected ;"], []).
Proof. done. Qed.

End Evaluations.

(** * Further properties of the embedded code *)

(** ** [parse]: what crosses its boundary *)

Module ParseBoundaryFacts.
Import Py Tokenizer Errors Parser.

(** X1. [parse] raises exactly what its [try] body raises outside the two
    caught classes; a CompileError or MultipleErrors never leaves it,
    whatever the grammar engine and the AST construction do. *)
Theorem parse_raises_only_uncaught {ParseGroup UI : Type}
    (run_grammar : list Token → string → result (@ParseContext ParseGroup))
    (to_ast : ParseGroup → result UI)
    (ast_errors ast_warnings : UI → result (list CompileError))
    (tokens : list Token) :
  (∀ x, parse run_grammar to_ast ast_errors ast_warnings tokens = Raise x
        ↔ parse_body run_grammar to_ast ast_errors ast_warnings tokens = Raise x
          ∧ ¬ caught x)
  ∧ (∀ e, parse run_grammar to_ast ast_errors ast_warnings tokens
          ≠ Raise (CompileErrorExn e))
  ∧ (∀ es, parse run_grammar to_ast ast_errors ast_warnings tokens
           ≠ Raise (MultipleErrorsExn es)).
Proof.
  assert (Hiff : ∀ x, parse run_grammar to_ast ast_errors ast_warnings tokens = Raise x
        ↔ parse_body run_grammar to_ast ast_errors ast_warnings tokens = Raise x
          ∧ ¬ caught x).
  { intros x. unfold parse.
    destruct (parse_body _ _ _ _ _) as [out|y].
    - split; [done|]. by intros [? _].
    - destruct y; simpl; split;
        try (intros [= <-]; split; [done|]; simpl; tauto);
        try (intros [[= <-] Hx]; simpl in Hx; tauto); done. }
  split_and!; [done| |].
  - intros e He. apply Hiff in He as [_ Hc]. by apply Hc.
  - intros es He. apply Hiff in He as [_ Hc]. by apply Hc.
Qed.

(** X2. Once a later stage raises a CompileError, what the grammar had
    already recorded is not returned: the result is no tree, that single
    error and no warnings, whatever errors and warnings the parse context
    held. *)
Theorem parse_drops_recorded_diagnostics {ParseGroup UI : Type}
    (run_grammar : list Token → string → result (@ParseContext ParseGroup))
    (to_ast : ParseGroup → result UI)
    (ast_errors ast_warnings : UI → result (list CompileError))
    (tokens : list Token) (ctx : @ParseContext ParseGroup) (g : ParseGroup)
    (e : CompileError) :
  run_grammar tokens (original_text tokens) = Ok ctx →
  last_group ctx = Some g →
  (to_ast g = Raise (CompileErrorExn e)
   ∨ (∃ n, to_ast g = Ok n ∧ ast_errors n = Raise (CompileErrorExn e))
   ∨ (∃ n es, to_ast g = Ok n ∧ ast_errors n = Ok es
              ∧ ast_warnings n = Raise (CompileErrorExn e))) →
  parse run_grammar to_ast ast_errors ast_warnings tokens = Ok (None, Some [e], []).
Proof.
  intros Hg Hlast Hstage. unfold parse, parse_body. rewrite Hg. simpl. rewrite Hlast.
  destruct Hstage as [Ha|[(n & Ha & He)|(n & es & Ha & He & Hw)]]; rewrite Ha; simpl.
  - done.
  - by rewrite He.
  - rewrite He. simpl. by rewrite Hw.
Qed.

Lemma parse_drops_recorded_diagnostics_witness :
  parse Samples.grammar_rejecting_empty
        (λ _ : unit, Raise (CompileErrorExn (Errors.error "Unknown class")) : result unit)
        (λ _, Ok []) (λ _, Ok []) Samples.tokens1
  = Ok (None, Some [Errors.error "Unknown class"], []).
Proof.
  apply (parse_drops_recorded_diagnostics Samples.grammar_rejecting_empty
           (λ _ : unit, Raise (CompileErrorExn (Errors.error "Unknown class")) : result unit)
           (λ _, Ok []) (λ _, Ok []) Samples.tokens1
           (mkParseContext (Some tt) [Errors.error "Expected ;"] []) tt
           (Errors.error "Unknown class")).
  - reflexivity.
  - reflexivity.
  - left. reflexivity.
Defined.

End ParseBoundaryFacts.

(** ** [complete] and [_complete]: termination, window and path *)

Module CompleteFacts.
Import Py Tokenizer Lsp AstUtils Completions Resolution.
Import WindowFacts ResolverFacts AnchorFacts.

Lemma index_elem_of {A} (l : list A) (i : Z) (x : A) :
  Py.index l i = Some x → x ∈ l.
Proof.
  unfold Py.index. destruct (0 <=? i); [by apply list_elem_of_lookup_2|].
  destruct (_ <=? i); [by apply list_elem_of_lookup_2|done].
Qed.

Lemma index_in_range {A} (l : list A) (i : Z) :
  - Z.of_nat (length l) <= i < Z.of_nat (length l) → is_Some (Py.index l i).
Proof.
  intros Hi. unfold Py.index. destruct (Z.leb_spec 0 i).
  - apply lookup_lt_is_Some_2. lia.
  - destruct (Z.leb_spec (- Z.of_nat (length l)) i); [|lia].
    apply lookup_lt_is_Some_2. lia.
Qed.

(** The position [p] of a list read with the negative index [p - len]. *)
Lemma index_from_end {A} (l : list A) (p : nat) (x : A) :
  l !! p = Some x → Py.index l (Z.of_nat p - Z.of_nat (length l)) = Some x.
Proof.
  intros Hp. pose proof (lookup_lt_Some _ _ _ Hp) as Hlt. unfold Py.index.
  destruct (Z.leb_spec 0 (Z.of_nat p - Z.of_nat (length l))); [lia|].
  destruct (Z.leb_spec (- Z.of_nat (length l)) (Z.of_nat p - Z.of_nat (length l))); [|lia].
  rewrite <- Hp. f_equal. lia.
Qed.

(** The second loop of [complete] raises nothing but IndexError. *)
Lemma step_back_raises_index_error (fuel : nat) (tokens : list Token)
    (idx token_idx : Z) (x : exn) :
  step_back fuel tokens idx token_idx = Some (Raise x) → x = IndexError.
Proof.
  revert idx token_idx. induction fuel as [|fuel IH]; intros idx ti; simpl;
    destruct (Py.index tokens ti) as [t|]; try (by intros [= <-]);
    destruct (ident_or_whitespace t); try done.
  apply IH.
Qed.

(** Going down from [token_idx], the loop stops at the latest once it meets a
    token that is neither identifier nor whitespace. *)
Lemma step_back_reaches (fuel : nat) (tokens : list Token) (idx token_idx j : Z)
    (t : Token) :
  - Z.of_nat (length tokens) <= j <= token_idx →
  token_idx < Z.of_nat (length tokens) →
  Py.index tokens j = Some t → ident_or_whitespace t = false →
  token_idx - j < Z.of_nat fuel →
  ∃ idx' ti', step_back fuel tokens idx token_idx = Some (Ok (idx', ti')).
Proof.
  intros Hj Hlt Ht Hni. revert idx token_idx Hj Hlt.
  induction fuel as [|fuel IH]; intros idx ti Hj Hlt Hfuel; [lia|]. simpl.
  destruct (index_in_range tokens ti) as [t' Ht']; [lia|]. rewrite Ht'.
  destruct (ident_or_whitespace t') eqn:Hiw; [|eauto].
  assert (j ≠ ti) by (intros ->; congruence).
  apply IH; lia.
Qed.

Lemma anchor_total (tokens : list Token) (idx : Z) :
  ∃ r, anchor tokens idx = Some r.
Proof.
  unfold anchor. apply step_back_total.
  destruct tokens as [|t tokens]; [by left|right].
  destruct (find_current_token_range idx (t :: tokens)) as [_ Hhi].
  specialize (Hhi ltac:(done)). simpl length in *. lia.
Qed.

Lemma anchor_ok_has_token (tokens : list Token) (idx idx' ti' : Z) :
  anchor tokens idx = Some (Ok (idx', ti')) →
  ∃ t, t ∈ tokens ∧ ident_or_whitespace t = false.
Proof.
  intros Ha. unfold anchor in Ha.
  destruct (step_back_spec _ _ _ _ _ _ Ha) as (_ & (t & Ht & Hni) & _).
  exists t. split; [by eapply index_elem_of|done].
Qed.

Lemma anchor_ok_of_token (tokens : list Token) (idx : Z) (t : Token) :
  t ∈ tokens → ident_or_whitespace t = false →
  ∃ idx' ti', anchor tokens idx = Some (Ok (idx', ti')).
Proof.
  intros [p Hp]%list_elem_of_lookup_1 Hni. unfold anchor.
  pose proof (lookup_lt_Some _ _ _ Hp) as Hlt.
  destruct (find_current_token_range idx tokens) as [Hlo Hhi].
  assert (tokens ≠ []) as Hne by (intros ->; done).
  specialize (Hhi Hne).
  apply (step_back_reaches _ _ _ _ (Z.of_nat p - Z.of_nat (length tokens)) t);
    [lia|lia|by apply index_from_end|done|lia].
Qed.

Lemma window_of_index (tokens : list Token) (token_idx : Z) :
  token_idx < Z.of_nat (length tokens) →
  prev_tokens_of tokens token_idx = Ok (trailing_window tokens token_idx).
Proof.
  intros Hlt. unfold prev_tokens_of.
  rewrite collect_prev_tokens_spec by (simpl; lia). by rewrite app_nil_r.
Qed.

(** X3. [complete] gets past its anchoring loop exactly when the token list
    holds a token that is neither an identifier nor whitespace (such as the
    end-of-file token); on any other list, the empty one included, the loop
    ends in IndexError. *)
Theorem anchor_ok_iff (tokens : list Token) (idx : Z) :
  ((∃ idx' ti', anchor tokens idx = Some (Ok (idx', ti')))
   ↔ ∃ t, t ∈ tokens ∧ ident_or_whitespace t = false)
  ∧ ((∀ t, t ∈ tokens → ident_or_whitespace t = true) →
     anchor tokens idx = Some (Raise IndexError)).
Proof.
  split; [split|].
  - intros (idx' & ti' & Ha). by eapply anchor_ok_has_token.
  - intros (t & Ht & Hni). by eapply anchor_ok_of_token.
  - intros Hall. destruct (anchor_total tokens idx) as [[[idx' ti']|x] Hr].
    + destruct (anchor_ok_has_token _ _ _ _ Hr) as (t & Ht & Hni).
      rewrite (Hall t Ht) in Hni. done.
    + rewrite Hr. unfold anchor in Hr.
      by rewrite (step_back_raises_index_error _ _ _ _ _ Hr).
Qed.

(** X4. On a token list with a token that is neither identifier nor
    whitespace, [complete] returns the suggestions of the completers of one
    node -- the node at the end of the path of matching children for the
    anchored offset -- called with the trailing window of the anchored token
    index, which has at most five tokens. *)
Theorem complete_dispatches_once (completers : NodeType → list Completer)
    (lsp : LanguageServer) (root : AstNode) (tokens : list Token) (idx : Z) :
  (∃ t, t ∈ tokens ∧ ident_or_whitespace t = false) →
  ∃ idx' ti' n,
    anchor tokens idx = Some (Ok (idx', ti'))
    ∧ node_at root (innermost_path idx' root) = Some n
    ∧ complete completers lsp root tokens idx
        = Some (dispatch completers lsp n (trailing_window tokens ti'))
    ∧ (length (trailing_window tokens ti') ≤ 5)%nat.
Proof.
  intros (t & Ht & Hni).
  destruct (anchor_ok_of_token tokens idx t Ht Hni) as (idx' & ti' & Ha).
  destruct (_complete_innermost completers lsp tokens idx' ti' root) as (n & Hn & _ & Heq).
  exists idx', ti', n. split_and!; [done|done| |apply last_n_length].
  unfold complete. rewrite Ha, Heq. unfold complete_here.
  rewrite window_of_index; [done|]. by eapply anchor_token_idx_in_range.
Qed.

Lemma complete_dispatches_once_witness :
  ∃ idx' ti' n,
    anchor Samples.tokens2 5 = Some (Ok (idx', ti'))
    ∧ node_at Samples.root_ab (innermost_path idx' Samples.root_ab) = Some n
    ∧ complete Samples.naming_completers Samples.lsp_plain Samples.root_ab
        Samples.tokens2 5
        = Some (dispatch Samples.naming_completers Samples.lsp_plain n
                  (trailing_window Samples.tokens2 ti'))
    ∧ (length (trailing_window Samples.tokens2 ti') ≤ 5)%nat.
Proof.
  apply (complete_dispatches_once Samples.naming_completers Samples.lsp_plain
           Samples.root_ab Samples.tokens2 5).
  exists (mkToken EOF 9 9 Samples.src2). split; [|reflexivity].
  unfold Samples.tokens2. do 9 apply list_elem_of_further. apply list_elem_of_here.
Defined.

(** X5. The window loop of [_complete] fails exactly when the token index is
    at or past the end of the token list (IndexError on its first read); a
    negative index gives the empty window. *)
Theorem window_index_error_iff (tokens : list Token) (token_idx : Z) :
  (prev_tokens_of tokens token_idx = Raise IndexError
   ↔ Z.of_nat (length tokens) <= token_idx)
  ∧ (token_idx < 0 → prev_tokens_of tokens token_idx = Ok []).
Proof.
  split; [split|].
  - intros Hr. destruct (Z.le_gt_cases (Z.of_nat (length tokens)) token_idx); [done|].
    rewrite window_of_index in Hr by done. done.
  - intros Hge. unfold prev_tokens_of.
    destruct (Z.to_nat (token_idx + 1)) as [|k] eqn:Hk; [lia|]. simpl.
    rewrite lookup_ge_None_2 by lia. done.
  - intros Hneg. unfold prev_tokens_of.
    replace (Z.to_nat (token_idx + 1)) with 0%nat by lia. done.
Qed.

(** X6. For every tree and offset there is one node whose completers
    [_complete] runs, whatever the registry, the tokens and the token index.
    None of its children satisfies the descent condition. It is the root
    when no child of the root satisfies the condition; otherwise it is a node
    that satisfies it: start <= offset, and offset < end or offset = end on
    an incomplete node. *)
Theorem innermost_node_contains_offset (root : AstNode) (idx : Z) :
  ∃ n,
    (∀ (completers : NodeType → list Completer) lsp tokens token_idx,
       _complete completers lsp root tokens idx token_idx
         = complete_here completers lsp n tokens token_idx)
    ∧ matching_child idx n = None
    ∧ (matching_child idx root = None → n = root)
    ∧ (is_Some (matching_child idx root) →
       group_start (group n) <= idx
       ∧ (idx < group_end (group n)
          ∨ (idx = group_end (group n) ∧ incomplete n = true))).
Proof.
  induction root as [root IH] using AstNode_forall_ind.
  destruct (matching_child idx root) as [c|] eqn:Hm.
  - pose proof Hm as Hfind. unfold matching_child in Hfind.
    apply find_some in Hfind as [Hin Hc]. apply list_elem_of_In in Hin.
    rewrite Forall_forall in IH.
    destruct (IH c Hin) as (n & Hrun & Hnone & Hroot & Hinside).
    exists n. split_and!; [|done|done|].
    + intros completers lsp tokens token_idx.
      rewrite _complete_unfold, Hm. apply Hrun.
    + intros _. destruct (matching_child idx c) as [c'|] eqn:Hmc.
      * apply Hinside. by eexists.
      * rewrite (Hroot eq_refl). by apply child_matches_iff.
  - exists root. split_and!; [|done|done|by intros [??]].
    intros completers lsp tokens token_idx. by rewrite _complete_unfold, Hm.
Qed.

(** X7. When the anchoring loop of [complete] stops at a position inside the
    list on a token that is not a comment, the window loop of [_complete]
    for that token index ends normally with a window whose last token is
    that token, a token that is neither an identifier nor whitespace; the
    window holds only tokens up to that position, so the identifier or blank
    under the cursor is not in it. Every completer of a node is called with
    that window. *)
Theorem window_ends_at_anchor (tokens : list Token) (idx idx' ti' : Z) (t : Token) :
  anchor tokens idx = Some (Ok (idx', ti')) →
  0 <= ti' →
  tokens !! Z.to_nat ti' = Some t →
  type t ≠ COMMENT →
  ∃ w, prev_tokens_of tokens ti' = Ok w
     ∧ last w = Some t
     ∧ (type t ∉ [IDENT; WHITESPACE])
     ∧ w `sublist_of` take (Z.to_nat ti' + 1) tokens
     ∧ ∀ (completers : NodeType → list Completer) lsp n,
         complete_here completers lsp n tokens ti'
           = gen_concat (map (λ completer : Completer, completer w n lsp)
                             (completers (node_type n))).
Proof.
  intros Ha Hpos Ht Hnc.
  pose proof (anchor_token_idx_in_range _ _ _ _ Ha) as Hlt.
  unfold anchor in Ha.
  destruct (step_back_spec _ _ _ _ _ _ Ha) as (_ & (t' & Ht' & Hni) & _).
  rewrite index_nonneg in Ht' by done. rewrite Ht in Ht'. injection Ht' as <-.
  assert (Hnot : type t ∉ [IDENT; WHITESPACE]).
  { unfold ident_or_whitespace in Hni. by apply bool_decide_eq_false in Hni. }
  assert (Hskip : skippable t = false).
  { unfold skippable, SKIP_TOKENS. apply bool_decide_eq_false.
    intros [?|[?|?%elem_of_nil]%elem_of_cons]%elem_of_cons; [done| |done].
    apply Hnot. rewrite H. apply list_elem_of_further, list_elem_of_here. }
  exists (trailing_window tokens ti').
  pose proof (window_of_index tokens ti' Hlt) as Hw.
  split_and!; [done| |done| |].
  - unfold trailing_window.
    replace (Z.to_nat (ti' + 1)) with (S (Z.to_nat ti')) by lia.
    rewrite (take_S_r _ _ _ Ht), filter_app, filter_cons_True by done.
    rewrite filter_nil. change 5%nat with (S 4). rewrite last_n_snoc. apply last_snoc.
  - unfold trailing_window.
    replace (Z.to_nat (ti' + 1)) with (S (Z.to_nat ti')) by lia.
    replace (Z.to_nat ti' + 1)%nat with (S (Z.to_nat ti')) by lia.
    unfold last_n. etrans; [apply sublist_drop|]. apply sublist_filter.
  - intros completers lsp n. unfold complete_here. by rewrite Hw.
Qed.

Lemma window_ends_at_anchor_witness :
  ∃ w, prev_tokens_of Samples.tokens2 2 = Ok w
     ∧ last w = Some (mkToken OP 2 3 Samples.src2)
     ∧ (type (mkToken OP 2 3 Samples.src2) ∉ [IDENT; WHITESPACE])
     ∧ w `sublist_of` take (Z.to_nat 2 + 1) Samples.tokens2
     ∧ ∀ (completers : NodeType → list Completer) lsp n,
         complete_here completers lsp n Samples.tokens2 2
           = gen_concat (map (λ completer : Completer, completer w n lsp)
                             (completers (node_type n))).
Proof.
  apply (window_ends_at_anchor Samples.tokens2 5 3 2 (mkToken OP 2 3 Samples.src2)).
  - reflexivity.
  - lia.
  - reflexivity.
  - discriminate.
Defined.

End CompleteFacts.

(** ** [property_completer] and [signal_completer]: shape of the output *)

Module SnippetFacts.
Import Py Tokenizer Gir Lsp AstUtils Completions.

Lemma append_assoc (a b c : string) : (a +:+ b) +:+ c = a +:+ (b +:+ c).
Proof.
  induction a as [|ch a IH]; [done|].
  change (String ch ((a +:+ b) +:+ c) = String ch (a +:+ (b +:+ c))).
  by rewrite IH.
Qed.

Lemma append_length (a b : string) :
  String.length (a +:+ b) = (String.length a + String.length b)%nat.
Proof.
  induction a as [|ch a IH]; [done|].
  change (S (String.length (a +:+ b)) = S (String.length a + String.length b)).
  by rewrite IH.
Qed.

Section WithAnnotations.
Variable is_property_translated : Property → bool.

Lemma property_completion_fields (lsp : LanguageServer) (prop_name : string)
    (prop : Property) :
  ∃ sn, property_completion is_property_translated lsp prop_name prop
        = property_item prop_name prop sn.
Proof.
  unfold property_completion.
  repeat match goal with |- context [if ?b then _ else _] => destruct b end; eauto.
Qed.

End WithAnnotations.

(** X8. [property_completer] never raises and offers every property of the
    class exactly once, in catalog order: labels are the property names, the
    kind is Property, documentation and detail are the property's own. A
    node without a class, or a class without properties, gives nothing. *)
Theorem property_completer_one_per_property (is_property_translated : Property → bool)
    (lsp : LanguageServer) (ast_node : AstNode) (mv : list string) :
  (property_completer is_property_translated lsp ast_node mv).2 = None
  ∧ ∃ props,
      props = match gir_class ast_node with
              | Some cls => default [] (properties cls)
              | None => []
              end
      ∧ label <$> (property_completer is_property_translated lsp ast_node mv).1
          = fst <$> props
      ∧ docs <$> (property_completer is_property_translated lsp ast_node mv).1
          = (prop_doc ∘ snd) <$> props
      ∧ detail <$> (property_completer is_property_translated lsp ast_node mv).1
          = (prop_detail ∘ snd) <$> props
      ∧ Forall (λ c, kind c = CompletionItemKind.Property ∧ text c = None)
          (property_completer is_property_translated lsp ast_node mv).1.
Proof.
  unfold property_completer.
  destruct (gir_class ast_node) as [cls|]; [|split; [done|]; exists []; by split_and!].
  destruct (properties cls) as [props|]; [|split; [done|]; exists []; by split_and!].
  split; [done|]. exists props. simpl.
  split_and!; [done| | | |].
  - rewrite <- list_fmap_compose. apply list_fmap_ext. intros i [n p] _. simpl.
    by destruct (property_completion_fields is_property_translated lsp n p) as [sn ->].
  - rewrite <- list_fmap_compose. apply list_fmap_ext. intros i [n p] _. simpl.
    by destruct (property_completion_fields is_property_translated lsp n p) as [sn ->].
  - rewrite <- list_fmap_compose. apply list_fmap_ext. intros i [n p] _. simpl.
    by destruct (property_completion_fields is_property_translated lsp n p) as [sn ->].
  - apply Forall_fmap, Forall_forall. intros [n p] _. simpl.
    by destruct (property_completion_fields is_property_translated lsp n p) as [sn ->].
Qed.

(** X9. Whatever the type of the property and the capabilities of the
    client, the snippet of a property suggestion is the property name, a
    colon and a blank, a value part, and a closing semicolon. *)
Theorem property_snippet_frame (is_property_translated : Property → bool)
    (lsp : LanguageServer) (prop_name : string) (prop : Property) :
  ∃ value,
    snippet (property_completion is_property_translated lsp prop_name prop)
      = Some (prop_name +:+ ": " +:+ value +:+ ";").
Proof.
  unfold property_completion.
  repeat match goal with |- context [if ?b then _ else _] => destruct b end; simpl.
  - by exists "${1|true,false|}".
  - by exists ("_(" +:+ dquote +:+ "$0" +:+ dquote +:+ ")").
  - by exists (dquote +:+ "$0" +:+ dquote).
  - exists ("${1|" +:+ join "," (members (prop_type prop)) +:+ "|}").
    by rewrite !append_assoc.
  - by exists "expr $0".
  - by exists "$0".
Qed.

(** X10. A client that does not support choice completions never receives a
    choice snippet: the value part is then a plain or translated string, an
    expression, or the empty placeholder. *)
Theorem no_choice_without_capability (is_property_translated : Property → bool)
    (lsp : LanguageServer) (prop_name : string) (prop : Property) :
  client_supports_completion_choice lsp = false →
  snippet (property_completion is_property_translated lsp prop_name prop)
    ∈ [ Some (prop_name +:+ ": _(" +:+ dquote +:+ "$0" +:+ dquote +:+ ");");
        Some (prop_name +:+ ": " +:+ dquote +:+ "$0" +:+ dquote +:+ ";");
        Some (prop_name +:+ ": expr $0;");
        Some (prop_name +:+ ": $0;") ].
Proof.
  intros Hflag. unfold property_completion. rewrite Hflag.
  rewrite !andb_false_r.
  repeat match goal with |- context [if ?b then _ else _] => destruct b end; simpl;
    set_solver.
Qed.

Lemma no_choice_without_capability_witness :
  snippet (property_completion (λ _, false) Samples.lsp_plain "visible" Samples.bool_prop)
    ∈ [ Some ("visible" +:+ ": _(" +:+ dquote +:+ "$0" +:+ dquote +:+ ");");
        Some ("visible" +:+ ": " +:+ dquote +:+ "$0" +:+ dquote +:+ ";");
        Some ("visible" +:+ ": expr $0;");
        Some ("visible" +:+ ": $0;") ].
Proof.
  apply (no_choice_without_capability (λ _, false) Samples.lsp_plain "visible"
           Samples.bool_prop).
  reflexivity.
Defined.

(** X11. For an enumeration and a client with choice support, the choice
    list is offered for up to ten members, with the member names joined by
    commas in catalog order; from eleven members on the snippet has no
    choice list. *)
Theorem enumeration_choice_bound (is_property_translated : Property → bool)
    (lsp : LanguageServer) (prop_name : string) (prop : Property)
    (n : string) (ms : list string) :
  prop_type prop = Enumeration n ms →
  client_supports_completion_choice lsp = true →
  ((length ms ≤ 10)%nat →
     snippet (property_completion is_property_translated lsp prop_name prop)
       = Some (prop_name +:+ ": ${1|" +:+ join "," ms +:+ "|};"))
  ∧ ((10 < length ms)%nat →
     snippet (property_completion is_property_translated lsp prop_name prop)
       = Some (if String.eqb n "Gtk.Expression"
               then prop_name +:+ ": expr $0;"
               else prop_name +:+ ": $0;")).
Proof.
  intros Hty Hflag. unfold property_completion. rewrite Hty, Hflag. simpl.
  split; intros Hlen.
  - by rewrite bool_decide_eq_true_2.
  - rewrite bool_decide_eq_false_2 by lia. simpl.
    by destruct (String.eqb n "Gtk.Expression").
Qed.

Lemma enumeration_choice_bound_witness :
  ((length ["start"; "center"; "end"] ≤ 10)%nat →
     snippet (property_completion (λ _, false) Samples.lsp_choice "halign"
                (mkProperty (Enumeration "Gtk.Align" ["start"; "center"; "end"]) None None))
       = Some ("halign" +:+ ": ${1|" +:+ join "," ["start"; "center"; "end"] +:+ "|};"))
  ∧ ((10 < length ["start"; "center"; "end"])%nat →
     snippet (property_completion (λ _, false) Samples.lsp_choice "halign"
                (mkProperty (Enumeration "Gtk.Align" ["start"; "center"; "end"]) None None))
       = Some (if String.eqb "Gtk.Align" "Gtk.Expression"
               then "halign" +:+ ": expr $0;"
               else "halign" +:+ ": $0;")).
Proof.
  apply (enumeration_choice_bound (λ _, false) Samples.lsp_choice "halign"
           (mkProperty (Enumeration "Gtk.Align" ["start"; "center"; "end"]) None None)
           "Gtk.Align" ["start"; "center"; "end"]); reflexivity.
Defined.

(** X12. For a string property the snippet is a quoted placeholder, wrapped
    in the translation marker exactly when the property is translatable; the
    capabilities of the client play no part. *)
Theorem string_property_snippet (is_property_translated : Property → bool)
    (lsp : LanguageServer) (prop_name : string) (prop : Property) :
  prop_type prop = StringType →
  snippet (property_completion is_property_translated lsp prop_name prop)
    = Some (if is_property_translated prop
            then prop_name +:+ ": _(" +:+ dquote +:+ "$0" +:+ dquote +:+ ");"
            else prop_name +:+ ": " +:+ dquote +:+ "$0" +:+ dquote +:+ ";").
Proof.
  intros Hty. unfold property_completion. rewrite Hty. simpl. done.
Qed.

Lemma string_property_snippet_witness :
  snippet (property_completion (λ _, true) Samples.lsp_choice "label"
             (mkProperty StringType None None))
    = Some (if (λ _ : Property, true) (mkProperty StringType None None)
            then "label" +:+ ": _(" +:+ dquote +:+ "$0" +:+ dquote +:+ ");"
            else "label" +:+ ": " +:+ dquote +:+ "$0" +:+ dquote +:+ ";").
Proof.
  apply (string_property_snippet (λ _, true) Samples.lsp_choice "label"
           (mkProperty StringType None None)).
  reflexivity.
Defined.

End SnippetFacts.

(** ** [signal_completer]: outcomes and handler names *)

Module SignalFacts.
Import Py Tokenizer Gir Lsp AstUtils Completions.

(** [replace('-', '_')] leaves no hyphen and keeps the length. *)
Lemma replace_hyphen_free (s : string) :
  Forall (λ c, c ≠ "-"%char) (list_ascii_of_string (replace_char "-" "_" s))
  ∧ String.length (replace_char "-" "_" s) = String.length s.
Proof.
  induction s as [|c s [IH1 IH2]]; [by split|].
  change (replace_char "-" "_" (String c s))
    with (String (if Ascii.eqb c "-" then "_"%char else c) (replace_char "-" "_" s)).
  split.
  - change (Forall (λ c0, c0 ≠ "-"%char)
              ((if Ascii.eqb c "-" then "_"%char else c)
               :: list_ascii_of_string (replace_char "-" "_" s))).
    constructor; [|done].
    destruct (Ascii.eqb_spec c "-"); [discriminate|done].
  - change (S (String.length (replace_char "-" "_" s)) = S (String.length s)).
    by rewrite IH2.
Qed.

(** On a name without a hyphen the replacement changes nothing. *)
Lemma replace_without_hyphen (s : string) :
  Forall (λ c, c ≠ "-"%char) (list_ascii_of_string s) →
  replace_char "-" "_" s = s.
Proof.
  induction s as [|c s IH]; [done|].
  change (list_ascii_of_string (String c s)) with (c :: list_ascii_of_string s).
  intros [Hc Hs]%Forall_cons.
  change (replace_char "-" "_" (String c s))
    with (String (if Ascii.eqb c "-" then "_"%char else c) (replace_char "-" "_" s)).
  rewrite (IH Hs). by destruct (Ascii.eqb_spec c "-").
Qed.

Lemma signal_handler_prefix_raises (str_lower : string → string)
    (ast_node : AstNode) (x : exn) :
  signal_handler_prefix str_lower ast_node = Raise x →
  (x = IndexError ∨ x = AttributeError)
  ∧ ∃ p, parent ast_node = Some p ∧ parent_type p = Object.
Proof.
  unfold signal_handler_prefix.
  destruct (parent ast_node) as [p|]; [|done].
  case_bool_decide as Hobj; [|done].
  intros Hx. split; [|by exists p].
  destruct (parent_class_names p !! 0%nat) as [cn|]; [|injection Hx as <-; by left].
  unfold str_or in Hx.
  destruct (tok_id cn) as [s|]; [destruct (String.eqb s "")|];
    destruct (tok_class_name cn); simpl in Hx; try done;
    injection Hx as <-; by right.
Qed.

(** The signals a node offers: those of its class, none without a class or
    without a [signals] attribute. *)
Lemma signal_completer_ok (str_lower : string → string)
    (lsp : LanguageServer) (ast_node : AstNode) (mv : list string) (name : string) :
  signal_handler_prefix str_lower ast_node = Ok name →
  signal_completer str_lower lsp ast_node mv
    = gen_of_list
        ((λ item, signal_completion name item.1 item.2)
           <$> match gir_class ast_node with
               | Some cls => default [] (signals cls)
               | None => []
               end).
Proof.
  intros Hn. unfold signal_completer.
  destruct (gir_class ast_node) as [cls|]; [|done].
  destruct (signals cls) as [[|s sigs]|]; [done| |done].
  by rewrite Hn.
Qed.

(** X13. [signal_completer] either ends normally with one suggestion per
    signal of the class, in catalog order and labelled with the signal name,
    or yields nothing and raises IndexError or AttributeError; it raises only
    for a class with at least one signal under a parent that is an Object.
    Under any other parent, or without a parent, it never raises. *)
Theorem signal_completer_outcomes (str_lower : string → string)
    (lsp : LanguageServer) (ast_node : AstNode) (mv : list string) :
  ((signal_completer str_lower lsp ast_node mv).2 = None →
     label <$> (signal_completer str_lower lsp ast_node mv).1
       = fst <$> match gir_class ast_node with
                 | Some cls => default [] (signals cls)
                 | None => []
                 end)
  ∧ (∀ x, (signal_completer str_lower lsp ast_node mv).2 = Some x →
       (signal_completer str_lower lsp ast_node mv).1 = []
       ∧ (x = IndexError ∨ x = AttributeError)
       ∧ (∃ cls s sigs, gir_class ast_node = Some cls ∧ signals cls = Some (s :: sigs))
       ∧ ∃ p, parent ast_node = Some p ∧ parent_type p = Object)
  ∧ ((∀ p, parent ast_node = Some p → parent_type p ≠ Object) →
       (signal_completer str_lower lsp ast_node mv).2 = None).
Proof.
  assert (Hraise : ∀ x, (signal_completer str_lower lsp ast_node mv).2 = Some x →
       (signal_completer str_lower lsp ast_node mv).1 = []
       ∧ (x = IndexError ∨ x = AttributeError)
       ∧ (∃ cls s sigs, gir_class ast_node = Some cls ∧ signals cls = Some (s :: sigs))
       ∧ ∃ p, parent ast_node = Some p ∧ parent_type p = Object).
  { intros x. unfold signal_completer.
    destruct (gir_class ast_node) as [cls|]; [|done].
    destruct (signals cls) as [[|s sigs]|] eqn:Hs; [done| |done].
    destruct (signal_handler_prefix str_lower ast_node) as [name|y] eqn:Hp; [done|].
    simpl. intros [= <-].
    destruct (signal_handler_prefix_raises _ _ _ Hp) as [Hx Hobj].
    split_and!; [done|done| |done]. by exists cls, s, sigs. }
  split_and!; [|done|].
  - destruct (signal_handler_prefix str_lower ast_node) as [name|y] eqn:Hp.
    + intros _. rewrite (signal_completer_ok _ _ _ _ _ Hp). simpl.
      rewrite <- list_fmap_compose. by apply list_fmap_ext.
    + unfold signal_completer.
      destruct (gir_class ast_node) as [cls|]; [|done].
      destruct (signals cls) as [[|s sigs]|]; [done| |done].
      by rewrite Hp.
  - intros Hno. destruct ((signal_completer str_lower lsp ast_node mv).2) as [x|] eqn:Hx; [|done].
    destruct (Hraise x eq_refl) as (_ & _ & _ & p & Hp & Hobj). by destruct (Hno p Hp).
Qed.

(** X14. Outside an Object (no parent, or a parent of another class) the
    handler name proposed for a signal is [on_] followed by the signal name
    with every hyphen turned into an underscore, and nothing else changed:
    the part taken from the signal name is [signal_name.replace('-', '_')],
    which has the length of the signal name, has no hyphen, and is the
    signal name itself when that has no hyphen. *)
Theorem signal_handler_name_outside_object (str_lower : string → string)
    (lsp : LanguageServer) (ast_node : AstNode)
    (mv : list string) (cls : GirClass) (sigs : list (string * Signal))
    (i : nat) (signal_name : string) (signal : Signal) :
  (∀ p, parent ast_node = Some p → parent_type p ≠ Object) →
  gir_class ast_node = Some cls →
  signals cls = Some sigs →
  sigs !! i = Some (signal_name, signal) →
  ∃ c, (signal_completer str_lower lsp ast_node mv).1 !! i = Some c
     ∧ (signal_completer str_lower lsp ast_node mv).2 = None
     ∧ label c = signal_name
     ∧ snippet c = Some (signal_name +:+ " => \$${1:$on_"
                         +:+ replace_char "-" "_" signal_name +:+ "}()$0;")
     ∧ Forall (λ ch, ch ≠ "-"%char)
         (list_ascii_of_string (replace_char "-" "_" signal_name))
     ∧ String.length (replace_char "-" "_" signal_name) = String.length signal_name
     ∧ (Forall (λ ch, ch ≠ "-"%char) (list_ascii_of_string signal_name) →
        replace_char "-" "_" signal_name = signal_name).
Proof.
  intros Hpar Hc Hs Hi.
  assert (Hname : signal_handler_prefix str_lower ast_node = Ok "on").
  { unfold signal_handler_prefix. destruct (parent ast_node) as [p|]; [|done].
    rewrite bool_decide_eq_false_2; [done|]. by apply Hpar. }
  rewrite (signal_completer_ok _ _ _ _ _ Hname), Hc, Hs. simpl.
  rewrite list_lookup_fmap, Hi. simpl.
  eexists. split_and!; [done|done|done|done|..].
  - apply replace_hyphen_free.
  - apply replace_hyphen_free.
  - apply replace_without_hyphen.
Qed.

Lemma signal_handler_name_outside_object_witness :
  ∃ c, (signal_completer Samples.ascii_lower Samples.lsp_plain Samples.window_content []).1
         !! 0%nat = Some c
     ∧ (signal_completer Samples.ascii_lower Samples.lsp_plain Samples.window_content []).2
         = None
     ∧ label c = "activate-default"
     ∧ snippet c = Some ("activate-default" +:+ " => \$${1:$on_"
                         +:+ replace_char "-" "_" "activate-default" +:+ "}()$0;")
     ∧ Forall (λ ch, ch ≠ "-"%char)
         (list_ascii_of_string (replace_char "-" "_" "activate-default"))
     ∧ String.length (replace_char "-" "_" "activate-default") = String.length "activate-default"
     ∧ (Forall (λ ch, ch ≠ "-"%char) (list_ascii_of_string "activate-default") →
        replace_char "-" "_" "activate-default" = "activate-default").
Proof.
  apply (signal_handler_name_outside_object Samples.ascii_lower Samples.lsp_plain
           Samples.window_content [] Samples.window_class
           [("activate-default", mkSignal None None)] 0 "activate-default" (mkSignal None None)).
  - intros p Hp. discriminate Hp.
  - reflexivity.
  - reflexivity.
  - reflexivity.
Defined.

(** X15. Under an Object whose ClassName child carries no [id] token, the
    handler name proposed for a signal is [on_], the lower-cased
    [class_name] token of the object's first ClassName child, an underscore
    and the signal name with its hyphens turned into underscores. *)
Theorem signal_handler_name_in_object (str_lower : string → string)
    (lsp : LanguageServer) (ast_node : AstNode)
    (mv : list string) (p : ParentView) (cn : ClassNameTokens) (class_name : string)
    (cls : GirClass) (sigs : list (string * Signal))
    (i : nat) (signal_name : string) (signal : Signal) :
  parent ast_node = Some p →
  parent_type p = Object →
  parent_class_names p !! 0%nat = Some cn →
  tok_id cn = None →
  tok_class_name cn = Some class_name →
  gir_class ast_node = Some cls →
  signals cls = Some sigs →
  sigs !! i = Some (signal_name, signal) →
  ∃ c, (signal_completer str_lower lsp ast_node mv).1 !! i = Some c
     ∧ (signal_completer str_lower lsp ast_node mv).2 = None
     ∧ label c = signal_name
     ∧ snippet c = Some (signal_name +:+ " => \$${1:$on_" +:+ str_lower class_name
                         +:+ "_" +:+ replace_char "-" "_" signal_name +:+ "}()$0;").
Proof.
  intros Hp Hobj Hcn Hid Hcl Hc Hs Hi.
  assert (Hname : signal_handler_prefix str_lower ast_node
                  = Ok ("on_" +:+ str_lower class_name)).
  { unfold signal_handler_prefix. rewrite Hp, Hcn.
    rewrite bool_decide_eq_true_2 by done. unfold str_or. by rewrite Hid, Hcl. }
  rewrite (signal_completer_ok _ _ _ _ _ Hname), Hc, Hs. simpl.
  rewrite list_lookup_fmap, Hi. simpl.
  eexists. split_and!; done.
Qed.

Lemma signal_handler_name_in_object_witness :
  ∃ c, (signal_completer Samples.ascii_lower Samples.lsp_plain Samples.button_content []).1
         !! 0%nat = Some c
     ∧ (signal_completer Samples.ascii_lower Samples.lsp_plain Samples.button_content []).2
         = None
     ∧ label c = "notify"
     ∧ snippet c = Some ("notify" +:+ " => \$${1:$on_" +:+ Samples.ascii_lower "Button"
                         +:+ "_" +:+ replace_char "-" "_" "notify" +:+ "}()$0;").
Proof.
  apply (signal_handler_name_in_object Samples.ascii_lower Samples.lsp_plain
           Samples.button_content []
           (mkParentView Object [mkClassNameTokens None (Some "Button")])
           (mkClassNameTokens None (Some "Button")) "Button"
           Samples.box_class [("notify", mkSignal None None)] 0 "notify"
           (mkSignal None None)); reflexivity.
Defined.

End SignalFacts.

(** ** The generators driven by the document and the catalog *)

Module CatalogFacts.
Import Py Tokenizer Gir Lsp AstUtils Completions CatalogCompleters.

(** X16. [object_completer] offers the classes of the namespace named by the
    first match variable, one suggestion per class in catalog order; a
    namespace the catalog does not know gives nothing, and an empty list of
    match variables raises IndexError before anything is offered.
    [gtk_object_completer] is [object_completer] at the namespace [Gtk]. *)
Theorem object_completer_by_namespace (lsp : LanguageServer) (root : RootView)
    (mv : list string) :
  gtk_object_completer lsp root mv = object_completer lsp root ["Gtk"]
  ∧ object_completer lsp root [] = ([], Some IndexError)
  ∧ (∀ key rest,
       (object_completer lsp root (key :: rest)).2 = None
       ∧ label <$> (object_completer lsp root (key :: rest)).1
           = class_name <$> default [] (classes <$> namespaces root !! key)
       ∧ Forall (λ c, kind c = CompletionItemKind.Class
                      ∧ snippet c = Some (label c +:+ " {" +:+ newline +:+ "  $0"
                                          +:+ newline +:+ "}"))
           (object_completer lsp root (key :: rest)).1).
Proof.
  split_and!; [done|done|].
  intros key rest. unfold object_completer. simpl.
  destruct (namespaces root !! key) as [ns|]; simpl; [|by split_and!].
  split_and!; [done| |].
  - rewrite <- list_fmap_compose. by apply list_fmap_ext.
  - apply Forall_fmap, Forall_forall. by intros c _.
Qed.

Lemma namespace_labels (l : list (option Namespace)) :
  label <$> mjoin ((λ ns : option Namespace,
                      match ns with
                      | Some n => [namespace_item (ns_name n)]
                      | None => []
                      end) <$> l)
  = ns_name <$> omap id l.
Proof.
  induction l as [|[n|] l IH]; csimpl; [done| |done].
  by rewrite IH.
Qed.

Lemma namespace_items_shape (l : list (option Namespace)) :
  Forall (λ c, text c = Some (label c +:+ ".")
               ∧ kind c = CompletionItemKind.Module_ ∧ snippet c = None)
    (mjoin ((λ ns : option Namespace,
               match ns with
               | Some n => [namespace_item (ns_name n)]
               | None => []
               end) <$> l)).
Proof.
  induction l as [|[n|] l IH]; csimpl; [done| |done].
  by constructor.
Qed.

(** X17. [namespace] never raises; it offers [Gtk] first and then the
    namespace of every import that resolved, in document order, skipping the
    imports that did not; the text inserted for each is its label followed by
    a dot. *)
Theorem namespace_suggestions (lsp : LanguageServer) (root : RootView)
    (mv : list string) :
  (namespace lsp root mv).2 = None
  ∧ label <$> (namespace lsp root mv).1
      = "Gtk" :: (ns_name <$> omap id (import_namespaces root))
  ∧ Forall (λ c, text c = Some (label c +:+ ".")
                 ∧ kind c = CompletionItemKind.Module_ ∧ snippet c = None)
      (namespace lsp root mv).1.
Proof.
  unfold namespace, gen_of_list, fst, snd. split_and!; [done| |].
  - rewrite fmap_cons. f_equal. apply namespace_labels.
  - constructor; [done|]. apply namespace_items_shape.
Qed.

(** X18. The choices that [property_completer] puts into the snippet of a
    boolean property, or of an enumeration of at most ten members, are the
    labels that [prop_value_completer] offers for a value of that type, in
    the same order, joined by commas. *)
Theorem choices_are_value_completions (is_property_translated : Property → bool)
    (member_doc member_detail : GirType → string → option string)
    (lsp : LanguageServer) (prop_name : string) (prop : Property) (mv : list string) :
  client_supports_completion_choice lsp = true →
  (prop_type prop = BoolType
   ∨ ∃ n ms, prop_type prop = Enumeration n ms ∧ (length ms ≤ 10)%nat) →
  snippet (property_completion is_property_translated lsp prop_name prop)
    = Some (prop_name +:+ ": ${1|"
            +:+ join "," (label <$> (prop_value_completer member_doc member_detail lsp
                                       (Some (Some (prop_type prop))) mv).1)
            +:+ "|};").
Proof.
  intros Hflag [Hty|(n & ms & Hty & Hlen)];
    unfold property_completion; rewrite Hty, Hflag; simpl.
  - done.
  - rewrite bool_decide_eq_true_2 by done. simpl.
    rewrite <- list_fmap_compose. simpl. by rewrite list_fmap_id.
Qed.

Lemma choices_are_value_completions_witness :
  snippet (property_completion (λ _, false) Samples.lsp_choice "visible" Samples.bool_prop)
    = Some ("visible" +:+ ": ${1|"
            +:+ join "," (label <$> (prop_value_completer (λ _ _, None) (λ _ _, None)
                                       Samples.lsp_choice
                                       (Some (Some (prop_type Samples.bool_prop))) []).1)
            +:+ "|};").
Proof.
  apply (choices_are_value_completions (λ _, false) (λ _ _, None) (λ _ _, None)
           Samples.lsp_choice "visible" Samples.bool_prop []).
  - reflexivity.
  - left. reflexivity.
Defined.

(** [prop_value_completer] offers something only for a value type that
    is known and is boolean or an enumeration: the constants [true] and
    [false], or one suggestion per member in catalog order. It never
    raises. *)
Lemma value_completions (member_doc member_detail : GirType → string → option string)
    (lsp : LanguageServer) (value_type : option (option GirType)) (mv : list string) :
  (prop_value_completer member_doc member_detail lsp value_type mv).2 = None
  ∧ label <$> (prop_value_completer member_doc member_detail lsp value_type mv).1
      = match value_type with
        | Some (Some BoolType) => ["true"; "false"]
        | Some (Some (Enumeration _ ms)) => ms
        | _ => []
        end
  ∧ Forall (λ c, snippet c = None ∧ text c = None
                 ∧ kind c = match value_type with
                            | Some (Some BoolType) => CompletionItemKind.Constant
                            | _ => CompletionItemKind.EnumMember
                            end)
      (prop_value_completer member_doc member_detail lsp value_type mv).1.
Proof.
  unfold prop_value_completer.
  destruct value_type as [[[| |n ms|n]|]|]; simpl; split_and!; try done.
  - by repeat constructor.
  - rewrite <- list_fmap_compose. simpl. by rewrite list_fmap_id.
  - apply Forall_fmap, Forall_forall. by intros c _.
Qed.

End CatalogFacts.

(** ** Appearance and state of a response *)

Module AppearanceFacts.
Import Py Errors Validation AdwResponseDialog.

Lemma existsb_eqb_elem_of (f : string) (l : list string) :
  existsb (λ flag, String.eqb flag f) l = true ↔ f ∈ l.
Proof.
  rewrite existsb_exists. split.
  - intros (x & Hin & ->%String.eqb_eq). by apply list_elem_of_In.
  - intros Hin. exists f. split; [by apply list_elem_of_In|apply String.eqb_refl].
Qed.

Lemma existsb_eqb_not_elem_of (f : string) (l : list string) :
  existsb (λ flag, String.eqb flag f) l = false ↔ f ∉ l.
Proof.
  rewrite <- existsb_eqb_elem_of. by destruct (existsb _ l).
Qed.

Lemma appearance_by_flags (q : ExtAdwResponseDialogResponse) :
  appearance q = (if bool_decide ("destructive" ∈ flags q) then Some "destructive"
                  else if bool_decide ("suggested" ∈ flags q) then Some "suggested"
                  else None)
  ∧ enabled q = negb (bool_decide ("disabled" ∈ flags q)).
Proof.
  unfold appearance, enabled.
  split; repeat case_bool_decide;
    repeat match goal with
    | H : _ ∈ _ |- _ => apply existsb_eqb_elem_of in H; rewrite H
    | H : _ ∉ _ |- _ => apply existsb_eqb_not_elem_of in H; rewrite H
    end; done.
Qed.

(** X19. [appearance] is [destructive] as soon as that flag is present,
    [suggested] when that flag is present and [destructive] is not, and None
    when neither is; [enabled] is false exactly when the flag [disabled] is
    present. Both depend on which flags a response carries, not on their
    order or number. *)
Theorem appearance_and_enabled (r : ExtAdwResponseDialogResponse) :
  (appearance r = Some "destructive" ↔ "destructive" ∈ flags r)
  ∧ (appearance r = Some "suggested"
     ↔ "suggested" ∈ flags r ∧ ("destructive" ∉ flags r))
  ∧ (appearance r = None ↔ ("destructive" ∉ flags r) ∧ ("suggested" ∉ flags r))
  ∧ (enabled r = false ↔ "disabled" ∈ flags r)
  ∧ (∀ r', (∀ f, f ∈ flags r ↔ f ∈ flags r') →
           appearance r = appearance r' ∧ enabled r = enabled r').
Proof.
  destruct (appearance_by_flags r) as [-> ->].
  split_and!.
  - repeat case_bool_decide; intuition congruence.
  - repeat case_bool_decide; intuition congruence.
  - repeat case_bool_decide; intuition congruence.
  - case_bool_decide; simpl; intuition congruence.
  - intros r' Hsame. destruct (appearance_by_flags r') as [-> ->].
    by rewrite !(bool_decide_ext _ _ (Hsame _)).
Qed.

End AppearanceFacts.

(** ** The two type validators of the template block *)

Module FactoryTypeFacts.
Import Py Errors Validation GtkListItemFactory.

(** X20. The type check of a template block raises exactly when the block
    has exactly one type name and that name is none of GtkListItem,
    GtkListHeader, GtkColumnViewRow, GtkColumnViewCell; the upgrade warning
    is raised exactly when the block does not have exactly one type name. So
    no block makes both validators raise, and a block with a type name from
    the list passes both. What the type check raises is a CompileError, what
    the other raises an UpgradeWarning. *)
Theorem type_validators_exclude_each_other (self : ExtListItemFactory) :
  (type_is_list_item self ≠ Ok tt
   ↔ ∃ t, type_names self = [t]
        ∧ glib_type_name t ∉
            ["GtkListItem"; "GtkListHeader"; "GtkColumnViewRow"; "GtkColumnViewCell"])
  ∧ (type_name_upgrade_body self ≠ Ok tt ↔ ∀ t, type_names self ≠ [t])
  ∧ (type_is_list_item self = Ok tt ∨ type_name_upgrade_body self = Ok tt)
  ∧ (∀ x, type_is_list_item self = Raise x →
          ∃ e, x = CompileErrorExn e ∧ err_class e = CompileErrorClass)
  ∧ (∀ x, type_name_upgrade_body self = Raise x →
          ∃ e, x = CompileErrorExn e ∧ err_class e = UpgradeWarningClass).
Proof.
  unfold type_is_list_item, type_name_upgrade_body, type_name.
  destruct (type_names self) as [|t [|t' l]] eqn:Hn; simpl.
  - split_and!; [|done|by left|done|].
    + split; [done|]. by intros (t & ? & _).
    + intros x [= <-]. by eexists.
  - case_bool_decide as Hin; split_and!.
    + split; [|done]. intros _. by exists t.
    + split; [done|]. intros H. by destruct (H t).
    + by right.
    + intros x [= <-]. by eexists.
    + done.
    + split; [done|]. intros (t0 & [= <-] & Hnot). done.
    + split; [done|]. intros H. by destruct (H t).
    + by left.
    + done.
    + done.
  - split_and!; [|done|by left|done|].
    + split; [done|]. by intros (t0 & ? & _).
    + intros x [= <-]. by eexists.
Qed.

End FactoryTypeFacts.

(** ** Dispatch order and the container check *)

Module DispatchFacts.
Import Py Tokenizer Lsp AstUtils Completions.

Lemma gen_concat_all_ok {A} (gs : list (gen A)) :
  Forall (λ g, g.2 = None) gs →
  gen_concat gs = (mjoin (fst <$> gs), None).
Proof.
  induction gs as [|[l o] gs IH]; intros Hall; [done|].
  apply Forall_cons in Hall as [Ho Hall]. simpl in Ho. subst o.
  unfold gen_concat in *. simpl. by rewrite (IH Hall).
Qed.

Lemma gen_concat_first_raise {A} (gs1 gs2 : list (gen A)) (l : list A) (x : exn) :
  Forall (λ g, g.2 = None) gs1 →
  gen_concat (gs1 ++ (l, Some x) :: gs2) = (mjoin (fst <$> gs1) ++ l, Some x).
Proof.
  induction gs1 as [|[l1 o] gs1 IH]; intros Hall; [done|].
  apply Forall_cons in Hall as [Ho Hall]. simpl in Ho. subst o.
  unfold gen_concat in *. simpl. rewrite (IH Hall). simpl. by rewrite app_assoc.
Qed.

(** X22. The completers of a node run in registration order and their
    suggestions are concatenated in that order. A completer that raises ends
    the request: what was suggested up to that point is kept, the exception
    is passed on, and the completers registered after it have no effect. *)
Theorem dispatch_in_registration_order (completers : NodeType → list Completer)
    (lsp : LanguageServer) (ast_node : AstNode) (prev_tokens : list Token) :
  (Forall (λ c : Completer, (c prev_tokens ast_node lsp).2 = None)
          (completers (node_type ast_node)) →
   dispatch completers lsp ast_node prev_tokens
     = (mjoin ((λ c : Completer, (c prev_tokens ast_node lsp).1)
                 <$> completers (node_type ast_node)), None))
  ∧ (∀ cs1 (c : Completer) cs2 x,
       completers (node_type ast_node) = cs1 ++ c :: cs2 →
       Forall (λ c' : Completer, (c' prev_tokens ast_node lsp).2 = None) cs1 →
       (c prev_tokens ast_node lsp).2 = Some x →
       dispatch completers lsp ast_node prev_tokens
         = (mjoin ((λ c' : Completer, (c' prev_tokens ast_node lsp).1) <$> cs1)
              ++ (c prev_tokens ast_node lsp).1, Some x)).
Proof.
  split.
  - intros Hall. unfold dispatch. rewrite gen_concat_all_ok.
    + by rewrite <- list_fmap_compose.
    + by apply Forall_fmap.
  - intros cs1 c cs2 x Hreg Hall Hx. unfold dispatch. rewrite Hreg.
    rewrite fmap_app, fmap_cons. cbv beta.
    destruct (c prev_tokens ast_node lsp) as [l o] eqn:Hc. simpl in Hx. subst o.
    etrans; [apply (gen_concat_first_raise (A:=Completion)); by apply Forall_fmap|].
    by rewrite <- list_fmap_compose.
Qed.

End DispatchFacts.

Module ContainerFacts.
Import Py Errors AdwResponseDialog.

(** X23. The container check of a responses block passes when the parent
    check passes for Adw.MessageDialog or, failing that, for
    Adw.AlertDialog. Whatever the first check raises -- of any class -- is
    discarded; when the block is rejected, the exception is the one of the
    AlertDialog check. *)
Theorem container_check_outcomes
    (validate_parent_type : string → string → string → result unit) :
  (container_is_message_dialog_or_alert_dialog validate_parent_type = Ok tt
   ↔ validate_parent_type "Adw" "MessageDialog" "responses" = Ok tt
     ∨ validate_parent_type "Adw" "AlertDialog" "responses" = Ok tt)
  ∧ (∀ x, container_is_message_dialog_or_alert_dialog validate_parent_type = Raise x
          ↔ (∃ y, validate_parent_type "Adw" "MessageDialog" "responses" = Raise y)
            ∧ validate_parent_type "Adw" "AlertDialog" "responses" = Raise x).
Proof.
  unfold container_is_message_dialog_or_alert_dialog.
  destruct (validate_parent_type "Adw" "MessageDialog" "responses") as [[]|y];
    destruct (validate_parent_type "Adw" "AlertDialog" "responses") as [[]|z];
    split; try (intros x); split; try done; eauto;
    try (by intros [?|?]); try (by intros [[??]?]); try (by intros [??]).
Qed.

End ContainerFacts.
